(** * atom-jshint: marker bookkeeping of the JSHint editor plugin

    A shallow embedding of [index.js]: the per-editor marker store, the
    same-line aggregation of diagnostics, the status bar summary and the
    lint pass that drives them.  The host editor, the configuration
    resolver and the two lint engines are collaborators of the plugin: the
    host is a piece of explicit state, the resolver and the engines are
    section variables.  The event wiring ([registerEvents], [activate])
    only decides when [lint] and [updateStatusbar] run and is left out. *)

From stdpp Require Import base gmap strings pretty list sets sorting.

Open Scope string_scope.
Open Scope list_scope.
Open Scope nat_scope.

(** * Part I: the program *)

(** ** Data model *)

(** One issue reported by the engine.  [line] is 1-based, and 0 when the
    engine complains about the configuration. *)
Record Diagnostic := {
  line : nat;
  character : nat;
  reason : string
}.

Global Instance Diagnostic_eq_dec : EqDecision Diagnostic.
Proof. solve_decision. Defined.

(** A row in JavaScript is either the number computed by [getRowForError]
    or the property name handed back by [_.keys]. *)
Inductive RowVal :=
  | RowNum (n : nat)
  | RowStr (s : string).

Global Instance RowVal_eq_dec : EqDecision RowVal.
Proof. solve_decision. Defined.

(** [===]: a number is never strictly equal to a string. *)
Definition strict_eq (a b : RowVal) : bool :=
  match a, b with
  | RowNum x, RowNum y => bool_decide (x = y)
  | RowStr s, RowStr t => bool_decide (s = t)
  | _, _ => false
  end.

(** A number turned into a string: its decimal digits. *)
Definition show (n : nat) : string := pretty n.

Global Instance show_inj : Inj (=) (=) show.
Proof. unfold show. apply _. Qed.

(** Property access [obj[row]] converts the row to a property name. *)
Definition to_property_key (v : RowVal) : string :=
  match v with
  | RowNum n => show n
  | RowStr s => s
  end.

(** [_.contains(rows, row)] compares with [===]. *)
Definition contains (rows : list RowVal) (row : RowVal) : bool :=
  existsb (strict_eq row) rows.

(** *** Sparse arrays

    [ret = []] followed by [ret[l] = v] leaves holes below [l]. *)
Definition array_get {A} (arr : list (option A)) (i : nat) : option A :=
  mjoin (arr !! i).

Definition array_set {A} (arr : list (option A)) (i : nat) (v : A)
  : list (option A) :=
  if decide (i < length arr) then <[i := Some v]> arr
  else arr ++ replicate (i - length arr) None ++ [Some v].

(** [_.compact]: holes and [null] entries are dropped, order is kept. *)
Definition compact {A} (arr : list (option A)) : list A := omap id arr.

(** [_.first]. *)
Definition first {A} (l : list A) : option A := head l.

(** *** [_.sortBy]: a stable ascending sort on a numeric key *)
Section SortBy.
Context {A : Type} (key : A → nat).

Fixpoint sort_insert (x : A) (l : list A) : list A :=
  match l with
  | [] => [x]
  | y :: l' =>
      if decide (key x ≤ key y) then x :: y :: l'
      else y :: sort_insert x l'
  end.

Definition sortBy (l : list A) : list A := foldr sort_insert [] l.
End SortBy.

(** ** Aggregation of same-line errors (the loop of [lint]) *)

Definition aggregate_step (ret : list (option (list Diagnostic)))
    (el : Diagnostic) : list (option (list Diagnostic)) :=
  let l := line el in
  match array_get ret l with
  | Some g => array_set ret l (sortBy character (g ++ [el]))
  | None => array_set ret l [el]
  end.

Definition aggregate (errors : list Diagnostic)
  : list (option (list Diagnostic)) :=
  foldl aggregate_step [] errors.

(** ** The host editor and the plugin's state *)

Record Editor := {
  editor_id : nat;            (* editor.id *)
  grammar_name : string;      (* editor.getGrammar().name *)
  uri : option string;        (* editor.getUri(), undefined when untitled *)
  text : string;              (* editor.getText() *)
  cursor_row : nat            (* editor.getCursorBufferPosition().row *)
}.

(** The handle returned by [editor.markBufferRange([[row, 0], [row, 1]])]. *)
Record Marker := {
  marker_id : nat;
  marker_row : nat
}.

Global Instance Marker_eq_dec : EqDecision Marker.
Proof. solve_decision. Defined.

(** An element of the host's user interface. *)
Record Element := {
  el_tag : string;
  el_id : string;
  el_class : string;
  el_inner : string
}.

Global Instance Element_eq_dec : EqDecision Element.
Proof. solve_decision. Defined.

Inductive Engine := JSHINT | JSXHINT.

(** Calls into the host and the collaborators, in the order they happen. *)
Inductive Event :=
  | LoadConfig (file : string)
  | RunEngine (which : Engine) (source : string)
  | MarkBufferRange (m : Marker)
  | DecorateMarker (m : Marker) (kind cls : string)
  | DestroyMarker (m : Marker)
  | DestroyTooltip (row : nat)
  | SetTooltip (row : nat) (title : Element)
  | OnChangedDestroyed (m : Marker).

Definition is_marker_creation (e : Event) : bool :=
  match e with MarkBufferRange _ => true | _ => false end.

Definition is_marker_destruction (e : Event) : bool :=
  match e with DestroyMarker _ => true | _ => false end.

Definition is_engine_call (e : Event) : bool :=
  match e with RunEngine _ _ => true | _ => false end.

(** The two maps of the plugin, and what it sees and changes of the host. *)
Record State := {
  markersByEditorId : gmap nat (gmap string Marker);
  errorsByEditorId : gmap nat (list (option (list Diagnostic)));
  activeEditor : option Editor;        (* atom.workspace.getActiveEditor() *)
  statusBar : option (list Element);   (* atom.workspaceView.statusBar *)
  settings : gmap string bool;         (* atom.config *)
  liveMarkers : gset nat;              (* markers the host has not destroyed *)
  nextMarkerId : nat;                  (* the next handle the host gives out *)
  trace : list Event                   (* the calls made so far, oldest first *)
}.

(** Updates of one part of the state. *)
Definition with_markers (f : gmap nat (gmap string Marker) → gmap nat (gmap string Marker))
    (s : State) : State :=
  {| markersByEditorId := f (markersByEditorId s);
     errorsByEditorId := errorsByEditorId s;
     activeEditor := activeEditor s;
     statusBar := statusBar s;
     settings := settings s;
     liveMarkers := liveMarkers s;
     nextMarkerId := nextMarkerId s;
     trace := trace s |}.

Definition with_errors
    (f : gmap nat (list (option (list Diagnostic))) → gmap nat (list (option (list Diagnostic))))
    (s : State) : State :=
  {| markersByEditorId := markersByEditorId s;
     errorsByEditorId := f (errorsByEditorId s);
     activeEditor := activeEditor s;
     statusBar := statusBar s;
     settings := settings s;
     liveMarkers := liveMarkers s;
     nextMarkerId := nextMarkerId s;
     trace := trace s |}.

Definition with_statusBar (f : list Element → list Element) (s : State) : State :=
  {| markersByEditorId := markersByEditorId s;
     errorsByEditorId := errorsByEditorId s;
     activeEditor := activeEditor s;
     statusBar := f <$> statusBar s;
     settings := settings s;
     liveMarkers := liveMarkers s;
     nextMarkerId := nextMarkerId s;
     trace := trace s |}.

Definition with_host (f : gset nat → gset nat) (next : nat) (evs : list Event)
    (s : State) : State :=
  {| markersByEditorId := markersByEditorId s;
     errorsByEditorId := errorsByEditorId s;
     activeEditor := activeEditor s;
     statusBar := statusBar s;
     settings := settings s;
     liveMarkers := f (liveMarkers s);
     nextMarkerId := next;
     trace := trace s ++ evs |}.

(** ** Computations: state passing with exceptions *)

Inductive Exn :=
  | TypeError (what : string)
  | Thrown (payload : string).

Inductive Result (A : Type) :=
  | Ok (a : A) (s : State)
  | Throw (e : Exn) (s : State).
Arguments Ok {A} a s.
Arguments Throw {A} e s.

Definition M (A : Type) : Type := State → Result A.

Global Instance M_ret : MRet M := λ A a s, Ok a s.
Global Instance M_bind : MBind M := λ A B f c s,
  match c s with
  | Ok a s' => f a s'
  | Throw e s' => Throw e s'
  end.

Definition gets {A} (f : State → A) : M A := λ s, Ok (f s) s.
Definition modify (f : State → State) : M unit := λ s, Ok () (f s).
Definition throw {A} (e : Exn) : M A := λ s, Throw e s.
Definition emit (evs : list Event) : M unit :=
  modify (λ s, with_host id (nextMarkerId s) evs s).

(** A value that is [undefined] faults when a property of it is read. *)
Definition deref {A} (what : string) (o : option A) : M A :=
  match o with
  | Some a => mret a
  | None => throw (TypeError what)
  end.

(** [_.each(list, callback)], for callbacks that return nothing. *)
Fixpoint each {A} (l : list A) (callback : A → M unit) : M unit :=
  match l with
  | [] => mret ()
  | x :: l' => callback x ≫= λ _, each l' callback
  end.

(** [_.map(list, callback)]. *)
Fixpoint map_each {A B} (l : list A) (callback : A → M B) : M (list B) :=
  match l with
  | [] => mret []
  | x :: l' => y ← callback x; ys ← map_each l' callback; mret (y :: ys)
  end.

(** [_.keys(object)]: the property names, as strings.  [_.keys] lists the
    names of rows by ascending row; here they come in the order the map
    lists them.  The loop of [clearOldMarkers] treats every key alike, and
    no property below depends on the order among them. *)
Definition keys {V} (object : gmap string V) : list RowVal :=
  RowStr <$> (map_to_list object).*1.

(** *** Host calls *)

Definition getActiveEditor : M (option Editor) := gets activeEditor.

Definition markBufferRange (row : nat) : M Marker := λ s,
  let m := {| marker_id := nextMarkerId s; marker_row := row |} in
  Ok m (with_host (λ live, {[marker_id m]} ∪ live) (S (nextMarkerId s))
          [MarkBufferRange m] s).

Definition decorateMarker (m : Marker) (kind cls : string) : M unit :=
  emit [DecorateMarker m kind cls].

(** [marker.destroy()]; the handler installed by [addReasons] then removes
    the tooltip of the marker's gutter row. *)
Definition destroy (m : Marker) : M unit :=
  modify (λ s, with_host (λ live, live ∖ {[marker_id m]}) (nextMarkerId s)
                 [DestroyMarker m; DestroyTooltip (marker_row m)] s).

Definition statusBar_remove (id : string) : M unit :=
  modify (with_statusBar (filter (λ e, el_id e ≠ id))).

Definition statusBar_appendLeft (e : Element) : M unit :=
  modify (with_statusBar (λ items, items ++ [e])).

(** ** The marker store

    The map of an editor is a plain object read and written at rows: row
    numbers, and the property names [_.keys] gives back for them.  At
    such names a lookup finds what was stored or nothing.  A name
    inherited from [Object.prototype] is never one of them and is outside
    this model: the properties about a row given from outside are stated
    for the rows of [names_row]. *)

Definition getMarkersForEditor : M (gmap string Marker) :=
  editor ← getActiveEditor;
  markers ← gets markersByEditorId;
  match editor with
  | Some ed =>
      match markers !! editor_id ed with
      | Some ms => mret ms
      | None => mret ∅
      end
  | None => mret ∅
  end.

(** [editor.id], which faults when there is no active editor. *)
Definition editor_dot_id (editor : option Editor) : M nat :=
  deref "Cannot read property 'id' of undefined" (editor_id <$> editor).

(** [error[0].line || 1], then [line - 1]; [None] when the group is empty,
    where reading [line] of [undefined] faults. *)
Definition getRowForError (error : list Diagnostic) : option nat :=
  match error with
  | [] => None
  | d :: _ =>
      let line := if decide (line d = 0) then 1 else line d in
      Some (line - 1)
  end.

Definition getRowForErrorM (error : list Diagnostic) : M nat :=
  deref "Cannot read property 'line' of undefined" (getRowForError error).

Definition destroyMarkerAtRow (row : RowVal) : M unit :=
  editor ← getActiveEditor;
  id ← editor_dot_id editor;
  markers ← gets markersByEditorId;
  match markers !! id with
  | Some ms =>
      match ms !! to_property_key row with
      | Some marker =>
          destroy marker;;
          modify (with_markers (λ markers,
            match markers !! id with
            | Some ms => <[id := delete (to_property_key row) ms]> markers
            | None => markers
            end))
      | None => mret ()
      end
  | None => mret ()
  end.

Definition clearOldMarkers (errors : list (list Diagnostic)) : M unit :=
  rows ← map_each errors (λ error,
    row ← getRowForErrorM error; mret (RowNum row));
  oldMarkers ← getMarkersForEditor;
  each (keys oldMarkers) (λ row,
    if contains rows row then mret () else destroyMarkerAtRow row).

Definition saveMarker (marker : Marker) (row : RowVal) : M unit :=
  editor ← getActiveEditor;
  id ← editor_dot_id editor;
  modify (with_markers (λ markers,
    match markers !! id with
    | Some _ => markers
    | None => <[id := ∅]> markers
    end));;
  modify (with_markers (λ markers,
    match markers !! id with
    | Some ms => <[id := <[to_property_key row := marker]> ms]> markers
    | None => markers
    end)).

Definition getMarkerAtRow (row : RowVal) : M (option Marker) :=
  editor ← getActiveEditor;
  id ← editor_dot_id editor;
  markers ← gets markersByEditorId;
  match markers !! id with
  | Some ms => mret (ms !! to_property_key row)
  | None => mret None
  end.

(** ** Presentation *)

(** The element of the status bar summary:
    [<span id=... class=...>JSHint line:character reason</span>]. *)
Definition summary_element (error : Diagnostic) : Element :=
  {| el_tag := "span";
     el_id := "jshint-statusbar";
     el_class := "inline-block";
     el_inner := "JSHint " +:+ show (line error) +:+ ":"
                 +:+ show (character error) +:+ " " +:+ reason error |}.

Definition updateStatusbar : M unit :=
  bar ← gets statusBar;
  match bar with
  | None => mret ()
  | Some _ =>
      editor ← getActiveEditor;
      statusBar_remove "jshint-statusbar";;
      errors ← gets errorsByEditorId;
      match editor with
      | None => mret ()
      | Some ed =>
          match errors !! editor_id ed with
          | None => mret ()
          | Some ret =>
              let cursor_line := cursor_row ed + 1 in
              let error :=
                match array_get ret cursor_line with
                | Some g => Some g
                | None => first (compact ret)
                end in
              error ← deref "Cannot read property '0' of undefined" error;
              error ← deref "Cannot read property 'line' of undefined" (error !! 0);
              statusBar_appendLeft (summary_element error)
          end
      end
  end.

Definition getReasonsForError (error : list Diagnostic) : list string :=
  (λ el, show (character el) +:+ ": " +:+ reason el) <$> error.

(** [Array.prototype.join]. *)
Fixpoint join (sep : string) (parts : list string) : string :=
  match parts with
  | [] => ""
  | [p] => p
  | p :: rest => p +:+ sep +:+ join sep rest
  end.

Definition addReasons (marker : Marker) (error : list Diagnostic) : M unit :=
  row ← getRowForErrorM error;
  let reasons :=
    {| el_tag := "div"; el_id := ""; el_class := "jshint-errors";
       el_inner := join "<br />" (getReasonsForError error) |} in
  emit [DestroyTooltip row; SetTooltip row reasons; OnChangedDestroyed marker].

Definition displayError (error : list Diagnostic) : M unit :=
  row ← getRowForErrorM error;
  existing ← getMarkerAtRow (RowNum row);
  match existing with
  | Some _ => mret ()
  | None =>
      editor ← getActiveEditor;
      _ ← deref "Cannot read property 'markBufferRange' of undefined" editor;
      marker ← markBufferRange row;
      decorateMarker marker "line" "jshint-line";;
      decorateMarker marker "gutter" "jshint-line-number";;
      saveMarker marker (RowNum row);;
      addReasons marker error
  end.

Definition displayErrors (errors : list (list Diagnostic)) : M unit :=
  clearOldMarkers errors;;
  updateStatusbar;;
  each errors displayError.

Definition removeMarkersForEditorId (id : nat) : M unit :=
  modify (with_markers (delete id)).

Definition removeErrorsForEditorId (id : nat) : M unit :=
  modify (with_errors (delete id)).

(** ** The lint pass *)

(** A string is truthy unless it is empty; [undefined] is falsy. *)
Definition truthy_string (o : option string) : option string :=
  match o with
  | Some "" => None
  | other => other
  end.

(** [atom.config.get(key)], read for its truthiness. *)
Definition config_get (key : string) : M bool :=
  cfg ← gets settings; mret (default false (cfg !! key)).

(** [atom.config.get(key1) || atom.config.get(key2)]: the second setting
    is read only when the first is off. *)
Definition config_get_either (key1 key2 : string) : M bool :=
  config_get key1 ≫= λ first_setting : bool,
    if first_setting then mret true else config_get key2.

(** A call to a collaborator: it is recorded, then it throws or returns. *)
Definition call {A} (ev : Event) (r : Exn + A) : M A :=
  emit [ev];;
  match r with
  | inl e => throw e
  | inr a => mret a
  end.

Section Lint.
(** The configuration resolver and the two lint engines are not part of
    the plugin: a configuration is an opaque value, and an engine either
    throws or leaves its diagnostics, possibly with [null] entries, in
    its [errors] slot. *)
Context {Config : Type}.
Variable emptyConfig : Config.
Variable loadConfig : string → Exn + Config.
Variable jshint jsxhint : string → Config → Exn + list (option Diagnostic).

Definition lint : M unit :=
  editor ← getActiveEditor;
  match editor with
  | None => mret ()
  | Some ed =>
      if bool_decide (grammar_name ed ∈ ["JavaScript"; "JavaScript (JSX)"])
      then
        let file := uri ed in
        config ←
          match truthy_string file with
          | Some f => call (LoadConfig f) (loadConfig f)
          | None => mret emptyConfig
          end;
        config_get_either "jshint.supportLintingJsx" "jshint.transformJsx"
        ≫= λ jsx : bool,
        let linter := if jsx then jsxhint else jshint in
        raw ← call (RunEngine (if jsx then JSXHINT else JSHINT) (text ed))
                   (linter (text ed) config);
        removeErrorsForEditorId (editor_id ed);;
        let errors := compact raw in
        groups ←
          (if decide (0 < length errors) then
             let ret := aggregate errors in
             modify (with_errors <[editor_id ed := ret]>);;
             mret (compact ret)
           else mret []);
        displayErrors groups
      else mret ()
  end.
End Lint.

(** ** Event handlers registered by [registerEvents] *)

(** What the host hands to the handler of [editor:will-be-removed]: a
    view, possibly without an editor. *)
Record EditorView := {
  view_editor : option Editor
}.

(** The handler of [editor:will-be-removed]. *)
Definition onEditorWillBeRemoved (editorView : option EditorView) : M unit :=
  match editorView with
  | Some view =>
      match view_editor view with
      | Some editor =>
          removeErrorsForEditorId (editor_id editor);;
          removeMarkersForEditorId (editor_id editor)
      | None => mret ()
      end
  | None => mret ()
  end.

(** * Part II: the vocabulary of the properties *)

(** The state a computation ends in, returned or thrown. *)
Definition state_of {A} (r : Result A) : State :=
  match r with
  | Ok _ s => s
  | Throw _ s => s
  end.

(** The markers the store holds for one editor. *)
Definition markers_of (s : State) (id : nat) : gmap string Marker :=
  default ∅ (markersByEditorId s !! id).

(** The host calls made between two states. *)
Definition new_events (s s' : State) : list Event :=
  drop (length (trace s)) (trace s').

(** The host calls of the store and of the presentation. *)
Definition is_ui_event (e : Event) : Prop :=
  match e with
  | LoadConfig _ | RunEngine _ _ => False
  | _ => True
  end.

(** What every operation of the store and of the presentation leaves
    alone: the editor, the settings and the error state; the calls they
    add never reach an engine or the configuration resolver. *)
Record ui_step (s s' : State) : Prop := {
  ui_editor : activeEditor s' = activeEditor s;
  ui_settings : settings s' = settings s;
  ui_errors : errorsByEditorId s' = errorsByEditorId s;
  ui_next : nextMarkerId s ≤ nextMarkerId s';
  ui_trace : ∃ evs, trace s' = trace s ++ evs ∧ Forall is_ui_event evs
}.

(** Ascending order on a numeric key. *)
Definition ascending {A : Type} (key : A → nat) : A → A → Prop :=
  λ a b, key a ≤ key b.

(** The group stored at index [l] should hold exactly the diagnostics of
    line [l]. *)
Definition group_of_line (errors : list Diagnostic) (l : nat) : list Diagnostic :=
  filter (λ d, line d = l) errors.

(** The rows of a list of diagnostic groups, as [getRowForError] computes
    them. *)
Definition rows_of (groups : list (list Diagnostic)) : list nat :=
  omap getRowForError groups.

(** The row [getRowForError] gives a group that starts on line [l]. *)
Definition row_of_line (l : nat) : nat := (if decide (l = 0) then 1 else l) - 1.

(** The status bar once [#jshint-statusbar] has been removed from it. *)
Definition without_summary (bar : list Element) : list Element :=
  filter (λ e, el_id e ≠ "jshint-statusbar") bar.

(** An error state as [lint] leaves it: at least one group, none empty. *)
Definition well_formed_errors (ret : list (option (list Diagnostic))) : Prop :=
  compact ret ≠ [] ∧ Forall (λ g, g ≠ []) (compact ret).

(** Every marker the store holds for an editor is live in the host, sits
    under the key of its own row, and was handed out by the host. *)
Record anchored (s : State) (id : nat) : Prop := {
  anchored_live : ∀ k m,
    markers_of s id !! k = Some m → marker_id m ∈ liveMarkers s;
  anchored_row : ∀ k m,
    markers_of s id !! k = Some m → k = show (marker_row m);
  anchored_fresh : ∀ k m,
    markers_of s id !! k = Some m → marker_id m < nextMarkerId s
}.

(** The editors [lint] accepts. *)
Definition supported (ed : Editor) : Prop :=
  grammar_name ed = "JavaScript" ∨ grammar_name ed = "JavaScript (JSX)".

(** A setting is enabled when [atom.config.get] gives [true] for it. *)
Definition enabled (s : State) (key : string) : Prop :=
  settings s !! key = Some true.

(** The calls of one kind among some host calls. *)
Definition marker_creations (evs : list Event) : list Event :=
  filter (λ e, is_marker_creation e = true) evs.

Definition marker_destructions (evs : list Event) : list Event :=
  filter (λ e, is_marker_destruction e = true) evs.

Definition engine_calls (evs : list Event) : list Event :=
  filter (λ e, is_engine_call e = true) evs.

(** What step 2 of the pass obtains for an editor, and the call it makes. *)
Definition resolve_config {Config : Type} (emptyConfig : Config)
    (loadConfig : string → Exn + Config) (ed : Editor) : Exn + Config :=
  match truthy_string (uri ed) with
  | Some f => loadConfig f
  | None => inr emptyConfig
  end.

Definition config_events (ed : Editor) : list Event :=
  match truthy_string (uri ed) with
  | Some f => [LoadConfig f]
  | None => []
  end.

(** Whether one of the two JSX settings is on. *)
Definition jsx_enabled (s : State) : bool :=
  default false (settings s !! "jshint.supportLintingJsx")
  || default false (settings s !! "jshint.transformJsx").

(** The engine the pass runs: its name in the trace, and the engine. *)
Definition selected_engine (s : State) : Engine :=
  if jsx_enabled s then JSXHINT else JSHINT.

Definition selected_linter {Config : Type}
    (jshint jsxhint : string → Config → Exn + list (option Diagnostic))
    (s : State) : string → Config → Exn + list (option Diagnostic) :=
  if jsx_enabled s then jsxhint else jshint.

(** The groups handed to [displayErrors]. *)
Definition groups_of (raw : list (option Diagnostic)) : list (list Diagnostic) :=
  compact (aggregate (compact raw)).

(** The state once the configuration has been asked for, and once the
    engine has been called. *)
Definition after_config (ed : Editor) (s : State) : State :=
  with_host id (nextMarkerId s) (config_events ed) s.

Definition after_engine (ed : Editor) (s : State) : State :=
  with_host id (nextMarkerId s)
    (config_events ed ++ [RunEngine (selected_engine s) (text ed)]) s.

(** The key the specification gives a diagnostic: the 0-based row
    [line - 1], which is [-1] for a configuration error. *)
Definition spec_row_key (d : Diagnostic) : Z := (Z.of_nat (line d) - 1)%Z.

(** Reading the aggregated array at an integer key.  The array is only
    ever written at a line number, so a negative key finds nothing. *)
Definition array_get_Z {A} (arr : list (option A)) (k : Z) : option A :=
  if decide (0 ≤ k)%Z then array_get arr (Z.to_nat k) else None.

(** The fault of reading [editor.id] when there is no editor. *)
Definition no_editor_fault : Exn :=
  TypeError "Cannot read property 'id' of undefined".

(** ** Vocabulary of the further properties *)

(** Every diagnostic of the first group is on an earlier line than every
    diagnostic of the second. *)
Definition earlier_lines (g1 g2 : list Diagnostic) : Prop :=
  ∀ d1 d2, d1 ∈ g1 → d2 ∈ g2 → line d1 < line d2.

(** A relation between the state a computation starts from and the state
    it ends in, whether it returns or throws. *)
Definition preserves {A} (R : State → State → Prop) (c : M A) : Prop :=
  ∀ s, R s (state_of (c s)).

(** An editor other than the active one. *)
Definition other_editor (s : State) (id : nat) : Prop :=
  editor_id <$> activeEditor s ≠ Some id.

(** What the marker store and the creation of markers leave alone: the
    editor, the settings, the whole error state, the status bar and the
    markers of every other editor.  Handles and calls only accumulate. *)
Record store_step (s s' : State) : Prop := {
  store_editor : activeEditor s' = activeEditor s;
  store_settings : settings s' = settings s;
  store_errors : errorsByEditorId s' = errorsByEditorId s;
  store_bar : statusBar s' = statusBar s;
  store_others : ∀ id, other_editor s id →
    markersByEditorId s' !! id = markersByEditorId s !! id;
  store_next : nextMarkerId s ≤ nextMarkerId s';
  store_trace : trace s `prefix_of` trace s'
}.

(** What a whole pass leaves alone: the editor, the settings, the markers
    and the errors of every other editor, and every element of the status
    bar but the summary. *)
Record untouched (s s' : State) : Prop := {
  same_editor : activeEditor s' = activeEditor s;
  same_settings : settings s' = settings s;
  other_markers : ∀ id, other_editor s id →
    markersByEditorId s' !! id = markersByEditorId s !! id;
  other_errors : ∀ id, other_editor s id →
    errorsByEditorId s' !! id = errorsByEditorId s !! id;
  other_elements : without_summary <$> statusBar s' = without_summary <$> statusBar s;
  handles_grow : nextMarkerId s ≤ nextMarkerId s';
  trace_grows : trace s `prefix_of` trace s'
}.

(** The summary elements of a status bar. *)
Definition summaries (bar : list Element) : list Element :=
  filter (λ e, el_id e = "jshint-statusbar") bar.

(** The summary [updateStatusbar] has to append in a state: that of the
    first diagnostic of the group of the cursor's line, else of the first
    group; none without an editor or without an error state, and none
    where the lookup faults. *)
Definition summary_of (s : State) : list Element :=
  match activeEditor s with
  | Some ed =>
      match errorsByEditorId s !! editor_id ed with
      | Some ret =>
          match array_get ret (cursor_row ed + 1) with
          | Some (d :: _) => [summary_element d]
          | Some [] => []
          | None =>
              match first (compact ret) with
              | Some (d :: _) => [summary_element d]
              | _ => []
              end
          end
      | None => []
      end
  | None => []
  end.

(** The diagnostic a pass has to show in the status bar, told from what
    the engine reported: the leftmost diagnostic of the cursor's line
    or, when that line has none, the leftmost diagnostic of the lowest
    line that has one. *)
Definition shown_in_summary (raw : list (option Diagnostic)) (cursor : nat)
    (d : Diagnostic) : Prop :=
  Some d ∈ raw ∧
  (∀ d', Some d' ∈ raw → line d' = line d → character d ≤ character d') ∧
  (line d = cursor + 1 ∨
   ((∀ d', Some d' ∈ raw → line d' ≠ cursor + 1) ∧
    (∀ d', Some d' ∈ raw → line d ≤ line d'))).

(** The store holds, for the editor [id], a marker whose handle is [x]. *)
Definition held (s : State) (id : nat) (x : nat) : Prop :=
  ∃ key marker, markers_of s id !! key = Some marker ∧ marker_id marker = x.

(** A row as the program hands it to the store: a row number, or the
    property name of one, as [_.keys] gives it back.  The names a plain
    object inherits ([constructor], [toString], ...) are not among them. *)
Definition names_row (row : RowVal) : Prop :=
  ∃ n : nat, to_property_key row = show n.

(** * Part III: concrete inputs *)

Definition missing_semicolon : Diagnostic :=
  {| line := 3; character := 4; reason := "Missing semicolon" |}.

Definition unused_variable : Diagnostic :=
  {| line := 3; character := 1; reason := "Unused variable" |}.

Definition undefined_name : Diagnostic :=
  {| line := 6; character := 2; reason := "Undefined name" |}.

Definition bad_option : Diagnostic :=
  {| line := 0; character := 0; reason := "Bad option" |}.

Definition first_line : Diagnostic :=
  {| line := 1; character := 7; reason := "Expected an assignment" |}.

Definition editor1 : Editor :=
  {| editor_id := 1; grammar_name := "JavaScript";
     uri := Some "/project/a.js"; text := "var a = 1"; cursor_row := 3 |}.

(** A fresh host showing [ed], with an empty status bar. *)
Definition fresh_state (ed : option Editor) : State :=
  {| markersByEditorId := ∅; errorsByEditorId := ∅; activeEditor := ed;
     statusBar := Some []; settings := ∅; liveMarkers := ∅;
     nextMarkerId := 0; trace := [] |}.

(** Diagnostics on rows 2 and 5, the cursor on row 3, a summary left
    over from an earlier pass. *)
Definition summary_state : State :=
  {| markersByEditorId := ∅;
     errorsByEditorId := {[1 := aggregate [missing_semicolon; undefined_name]]};
     activeEditor := Some editor1;
     statusBar := Some [summary_element first_line];
     settings := ∅; liveMarkers := ∅; nextMarkerId := 0; trace := [] |}.

Definition load_ok (file : string) : Exn + unit := inr ().

Definition engine_reports (errors : list (option Diagnostic))
  : string → unit → Exn + list (option Diagnostic) :=
  λ _ _, inr errors.

Definition engine_fails
  : string → unit → Exn + list (option Diagnostic) :=
  λ _ _, inl (Thrown "Maximum call stack size exceeded").

(** Editor 1 after an earlier pass: one marker on row 2. *)
Definition marked_state : State :=
  {| markersByEditorId :=
       {[1 := {[show 2 := {| marker_id := 0; marker_row := 2 |}]}]};
     errorsByEditorId := {[1 := aggregate [missing_semicolon]]};
     activeEditor := Some editor1;
     statusBar := Some [summary_element missing_semicolon];
     settings := {["jshint.transformJsx" := true]};
     liveMarkers := {[0]};
     nextMarkerId := 1;
     trace := [] |}.

Definition python_editor : Editor :=
  {| editor_id := 2; grammar_name := "Python";
     uri := Some "/project/a.py"; text := "a = 1"; cursor_row := 0 |}.

Definition with_editor (ed : option Editor) (s : State) : State :=
  {| markersByEditorId := markersByEditorId s;
     errorsByEditorId := errorsByEditorId s;
     activeEditor := ed;
     statusBar := statusBar s;
     settings := settings s;
     liveMarkers := liveMarkers s;
     nextMarkerId := nextMarkerId s;
     trace := trace s |}.

(** The same engine result twice: one diagnostic on line 3. *)
Definition lint_missing_semicolon : M unit :=
  lint () load_ok (engine_reports [Some missing_semicolon]) engine_fails.

Definition after_first_pass : State :=
  state_of (lint_missing_semicolon (fresh_state (Some editor1))).

Definition after_second_pass : State :=
  state_of (lint_missing_semicolon after_first_pass).

(** A second diagnostic at the place of [missing_semicolon]. *)
Definition unexpected_token : Diagnostic :=
  {| line := 3; character := 4; reason := "Unexpected token" |}.

(** An editor that has not been saved to a file. *)
Definition untitled_editor : Editor :=
  {| editor_id := 3; grammar_name := "JavaScript";
     uri := None; text := "var b"; cursor_row := 0 |}.

(** * Part IV: proofs *)

(** ** Sparse arrays and sorting *)

Section ArrayFacts.
Context {A : Type}.
Implicit Types (arr : list (option A)) (i j : nat) (v : A).

Lemma array_get_nil i : array_get (@nil (option A)) i = None.
Proof. unfold array_get. by rewrite lookup_nil. Qed.

Lemma array_get_set_eq arr i v : array_get (array_set arr i v) i = Some v.
Proof.
  unfold array_get, array_set. case_decide as Hi.
  - by rewrite list_lookup_insert_eq.
  - rewrite lookup_app_r by lia.
    rewrite lookup_app_r by (rewrite length_replicate; lia).
    rewrite length_replicate.
    by replace (i - length arr - (i - length arr)) with 0 by lia.
Qed.

Lemma array_get_set_ne arr i j v :
  i ≠ j → array_get (array_set arr i v) j = array_get arr j.
Proof.
  intros Hne. unfold array_get, array_set. case_decide as Hi.
  - by rewrite list_lookup_insert_ne.
  - destruct (decide (j < length arr)) as [Hj|Hj].
    + by rewrite lookup_app_l.
    + rewrite (lookup_ge_None_2 arr j) by lia.
      rewrite lookup_app_r by lia.
      destruct (decide (j - length arr < i - length arr)) as [Hlt|Hge].
      * rewrite lookup_app_l by (by rewrite length_replicate).
        by rewrite lookup_replicate_2.
      * rewrite lookup_app_r by (rewrite length_replicate; lia).
        rewrite length_replicate.
        destruct (j - length arr - (i - length arr)) as [|n] eqn:Hn;
          [lia | done].
Qed.

Lemma elem_of_compact arr v :
  v ∈ compact arr ↔ ∃ i, array_get arr i = Some v.
Proof.
  unfold compact, array_get. rewrite list_elem_of_omap. split.
  - intros ([w|] & Hin & Hw); simplify_eq/=.
    apply list_elem_of_lookup in Hin as [i Hi]. exists i. by rewrite Hi.
  - intros [i Hi]. destruct (arr !! i) as [[w|]|] eqn:E; simplify_eq/=.
    exists (Some v). split; [|done]. by eapply list_elem_of_lookup_2.
Qed.
End ArrayFacts.

Section SortFacts.
Context {A : Type} (key : A → nat).
Implicit Types (x : A) (l : list A).

Lemma sort_insert_Permutation x l : sort_insert key x l ≡ₚ x :: l.
Proof.
  induction l as [|y l IH]; simpl; [done|].
  case_decide; [done|]. rewrite IH. apply Permutation_swap.
Qed.

Lemma sortBy_Permutation l : sortBy key l ≡ₚ l.
Proof.
  induction l as [|x l IH]; simpl; [done|].
  by rewrite sort_insert_Permutation, IH.
Qed.

Lemma sort_insert_sorted x l :
  StronglySorted (ascending key) l → StronglySorted (ascending key) (sort_insert key x l).
Proof.
  induction 1 as [|y l Hs IH Hall]; simpl.
  { repeat constructor. }
  case_decide as Hle.
  - constructor; [by constructor|].
    constructor; [done|].
    eapply Forall_impl; [exact Hall|]. unfold ascending. intros; lia.
  - constructor; [done|].
    rewrite sort_insert_Permutation. constructor; [|done].
    unfold ascending. lia.
Qed.

Lemma sortBy_sorted l : StronglySorted (ascending key) (sortBy key l).
Proof.
  induction l as [|x l IH]; simpl; [constructor|].
  by apply sort_insert_sorted.
Qed.
End SortFacts.

(** ** Facts about the aggregation *)

Lemma aggregate_snoc errors el :
  aggregate (errors ++ [el]) = aggregate_step (aggregate errors) el.
Proof. unfold aggregate. by rewrite foldl_app. Qed.

Lemma aggregate_get errors l :
  match array_get (aggregate errors) l with
  | Some g =>
      g ≡ₚ group_of_line errors l ∧ g ≠ [] ∧
      StronglySorted (ascending character) g
  | None => group_of_line errors l = []
  end.
Proof.
  induction errors as [|el errors IH] using rev_ind.
  { change (aggregate []) with (@nil (option (list Diagnostic))).
    by rewrite array_get_nil. }
  rewrite aggregate_snoc. unfold aggregate_step, group_of_line. cbv zeta.
  rewrite filter_app, filter_cons, filter_nil.
  destruct (decide (l = line el)) as [->|Hne].
  - rewrite decide_True by done.
    destruct (array_get (aggregate errors) (line el)) as [g|] eqn:Hg;
      rewrite array_get_set_eq.
    + destruct IH as (Hp & Hn & Hs). split_and!.
      * by rewrite sortBy_Permutation, Hp.
      * intros Hnil. apply (f_equal length) in Hnil.
        rewrite (Permutation_length (sortBy_Permutation _ _)) in Hnil.
        rewrite length_app in Hnil. simpl in Hnil. lia.
      * apply sortBy_sorted.
    + unfold group_of_line in IH. rewrite IH. split_and!; [done|done|].
      repeat constructor.
  - rewrite decide_False by done.
    replace (array_get _ l) with (array_get (aggregate errors) l).
    + destruct (array_get (aggregate errors) l); [|by rewrite app_nil_r].
      by rewrite app_nil_r.
    + by destruct (array_get (aggregate errors) (line el));
        rewrite array_get_set_ne.
Qed.

Lemma aggregate_group_nonempty errors g :
  g ∈ compact (aggregate errors) → g ≠ [].
Proof.
  intros [l Hl]%elem_of_compact. pose proof (aggregate_get errors l) as H.
  rewrite Hl in H. tauto.
Qed.

Lemma aggregate_nonempty errors :
  errors ≠ [] → compact (aggregate errors) ≠ [].
Proof.
  destruct errors as [|d errors]; [done|]. intros _ Hnil.
  pose proof (aggregate_get (d :: errors) (line d)) as H.
  destruct (array_get _ (line d)) as [g|] eqn:Hg.
  - assert (g ∈ compact (aggregate (d :: errors))) as Hin
      by (apply elem_of_compact; eauto).
    rewrite Hnil in Hin. by apply elem_of_nil in Hin.
  - unfold group_of_line in H. rewrite filter_cons_True in H by done. done.
Qed.

(** ** Reasoning about computations *)

Lemma bind_Ok {A B} (c : M A) (f : A → M B) s a s' :
  c s = Ok a s' → (c ≫= f) s = f a s'.
Proof. unfold mbind, M_bind. by intros ->. Qed.

Ltac run :=
  unfold getActiveEditor, editor_dot_id, getRowForErrorM, deref, gets,
    modify, throw, emit, config_get;
  unfold mbind, M_bind, mret, M_ret; simpl.

Lemma ui_step_refl s : ui_step s s.
Proof.
  split; try done. exists []. by rewrite app_nil_r.
Qed.

Lemma ui_step_trans s1 s2 s3 : ui_step s1 s2 → ui_step s2 s3 → ui_step s1 s3.
Proof.
  intros [E1 S1 R1 N1 (evs1 & T1 & F1)] [E2 S2 R2 N2 (evs2 & T2 & F2)].
  split; try congruence; [lia|].
  exists (evs1 ++ evs2). rewrite T2, T1, app_assoc.
  split; [done|]. by apply Forall_app.
Qed.

Lemma ui_step_host s f n evs :
  nextMarkerId s ≤ n → Forall is_ui_event evs →
  ui_step s (with_host f n evs s).
Proof. intros Hn Hevs. split; simpl; eauto. Qed.

Lemma ui_step_markers s f : ui_step s (with_markers f s).
Proof. split; simpl; try done. exists []. by rewrite app_nil_r. Qed.

Lemma ui_step_statusBar s f : ui_step s (with_statusBar f s).
Proof. split; simpl; try done. exists []. by rewrite app_nil_r. Qed.

Lemma new_events_app s s' evs : trace s' = trace s ++ evs → new_events s s' = evs.
Proof. unfold new_events. intros ->. by rewrite drop_app_length. Qed.

Lemma new_events_refl s : new_events s s = [].
Proof. unfold new_events. by rewrite drop_all. Qed.

Lemma ui_step_events s s' : ui_step s s' → trace s' = trace s ++ new_events s s'.
Proof.
  intros [_ _ _ _ (evs & Htr & _)]. by rewrite (new_events_app s s' evs).
Qed.

Lemma new_events_trans s s1 s2 :
  trace s1 = trace s ++ new_events s s1 →
  trace s2 = trace s1 ++ new_events s1 s2 →
  new_events s s2 = new_events s s1 ++ new_events s1 s2.
Proof.
  intros H1 H2. apply new_events_app. by rewrite H2, H1 at 1; rewrite app_assoc.
Qed.

Lemma new_events_ui_trans s s1 s2 :
  ui_step s s1 → ui_step s1 s2 →
  new_events s s2 = new_events s s1 ++ new_events s1 s2.
Proof. intros H1 H2. apply new_events_trans; by apply ui_step_events. Qed.

(** A property name never [===] a number. *)
Lemma contains_numbers_string (rows : list nat) (k : string) :
  contains (RowNum <$> rows) (RowStr k) = false.
Proof. unfold contains. induction rows as [|r rows IH]; simpl; done. Qed.

Lemma lookup_foldl_delete {V} (ks : list string) (m : gmap string V) k :
  foldl (λ m k, delete k m) m ks !! k =
  if decide (k ∈ ks) then None else m !! k.
Proof.
  revert m. induction ks as [|k' ks IH]; intros m; cbn [foldl].
  { rewrite decide_False; [done|]. apply not_elem_of_nil. }
  rewrite IH. destruct (decide (k = k')) as [->|Hne].
  - rewrite lookup_delete_eq. rewrite (decide_True (P := k' ∈ k' :: ks)) by left.
    by case_decide.
  - rewrite lookup_delete_ne by done.
    destruct (decide (k ∈ ks)) as [Hin|Hnin].
    + by rewrite (decide_True (P := k ∈ k' :: ks)) by (by right).
    + rewrite (decide_False (P := k ∈ k' :: ks)); [done|].
      by intros [?|?]%elem_of_cons.
Qed.

Lemma foldl_delete_keys {V} (m : gmap string V) :
  foldl (λ m k, delete k m) m (map_to_list m).*1 = ∅.
Proof.
  apply map_eq. intros k. rewrite lookup_foldl_delete, lookup_empty.
  case_decide as Hk; [done|]. apply not_elem_of_dom. intros Hd.
  apply Hk. apply elem_of_dom in Hd as [v Hv].
  apply list_elem_of_fmap. exists (k, v). split; [done|].
  by apply elem_of_map_to_list.
Qed.

Lemma map_each_rows groups s :
  Forall (λ g, g ≠ []) groups →
  map_each groups (λ error, row ← getRowForErrorM error; mret (RowNum row)) s
  = Ok (RowNum <$> rows_of groups) s.
Proof.
  induction 1 as [|g groups Hg _ IH]; [done|].
  destruct g as [|d g]; [done|]. simpl.
  erewrite bind_Ok; [|by run].
  erewrite bind_Ok; [|exact IH]. done.
Qed.

(** *** The marker store with an active editor *)

Section Store.
Variable ed : Editor.

Lemma getMarkersForEditor_active s :
  activeEditor s = Some ed →
  getMarkersForEditor s = Ok (markers_of s (editor_id ed)) s.
Proof.
  intros Ha. unfold getMarkersForEditor, markers_of. run. rewrite Ha.
  by destruct (markersByEditorId s !! (editor_id ed)).
Qed.

Lemma getMarkerAtRow_active s row :
  activeEditor s = Some ed →
  getMarkerAtRow row s = Ok (markers_of s (editor_id ed) !! to_property_key row) s.
Proof.
  intros Ha. unfold getMarkerAtRow, markers_of. run. rewrite Ha. simpl.
  by destruct (markersByEditorId s !! (editor_id ed)).
Qed.

Lemma destroyMarkerAtRow_active s row :
  activeEditor s = Some ed →
  ∃ s', destroyMarkerAtRow row s = Ok () s' ∧
    ui_step s s' ∧
    statusBar s' = statusBar s ∧
    markers_of s' (editor_id ed) =
      delete (to_property_key row) (markers_of s (editor_id ed)) ∧
    (∀ m, markers_of s (editor_id ed) !! to_property_key row = Some m →
          DestroyMarker m ∈ new_events s s') ∧
    marker_creations (new_events s s') = [].
Proof.
  intros Ha. unfold destroyMarkerAtRow, destroy, markers_of. run.
  rewrite Ha. simpl.
  destruct (markersByEditorId s !! (editor_id ed)) as [ms|] eqn:Hms; simpl.
  - destruct (ms !! to_property_key row) as [marker|] eqn:Hm.
    + eexists. split; [done|]. split_and!.
      * eapply ui_step_trans; [|apply ui_step_markers].
        apply ui_step_host; [done|]. by repeat constructor.
      * done.
      * simpl. rewrite Hms. by rewrite lookup_insert_eq.
      * intros m [= <-]. erewrite new_events_app by (by simpl). left.
      * by erewrite new_events_app by (by simpl).
    + exists s. rewrite new_events_refl.
      split_and!; [done|apply ui_step_refl|done| |done|done].
      rewrite Hms. simpl. by rewrite delete_id.
  - exists s. rewrite new_events_refl.
    split_and!; [done|apply ui_step_refl|done| |done|done].
    rewrite Hms. simpl. by rewrite delete_empty.
Qed.

(** The loop of [clearOldMarkers]: no key handed back by [_.keys] is
    ever found among the numeric rows, so every key is destroyed. *)
Lemma clear_loop rows ks s :
  activeEditor s = Some ed →
  ∃ s', each (RowStr <$> ks) (λ row,
          if contains (RowNum <$> rows) row then mret ()
          else destroyMarkerAtRow row) s = Ok () s' ∧
    ui_step s s' ∧
    statusBar s' = statusBar s ∧
    markers_of s' (editor_id ed) =
      foldl (λ m k, delete k m) (markers_of s (editor_id ed)) ks ∧
    (∀ k m, k ∈ ks → markers_of s (editor_id ed) !! k = Some m →
            DestroyMarker m ∈ new_events s s') ∧
    marker_creations (new_events s s') = [].
Proof.
  revert s. induction ks as [|k ks IH]; intros s Ha; simpl.
  { exists s. rewrite new_events_refl.
    split_and!; [done|apply ui_step_refl|done|done| |done].
    by intros k m ?%elem_of_nil. }
  rewrite contains_numbers_string.
  destruct (destroyMarkerAtRow_active s (RowStr k) Ha)
    as (s1 & Hrun & Hui & Hbar & Hm & Hev & Hnew).
  destruct (IH s1) as (s2 & Hrun2 & Hui2 & Hbar2 & Hm2 & Hev2 & Hnew2).
  { by rewrite (ui_editor _ _ Hui). }
  exists s2. rewrite (new_events_ui_trans s s1 s2) by done. split_and!.
  - by erewrite bind_Ok.
  - by eapply ui_step_trans.
  - congruence.
  - by rewrite Hm2, Hm.
  - intros k' m Hk' Hlook.
    apply elem_of_app. destruct (decide (k' = k)) as [->|Hne].
    + left. by apply Hev.
    + right. apply (Hev2 k'); [set_solver|].
      rewrite Hm. simpl. by rewrite lookup_delete_ne.
  - unfold marker_creations in *. by rewrite filter_app, Hnew, Hnew2.
Qed.

(** Whatever the new groups are, [clearOldMarkers] destroys every marker
    the store holds for the editor. *)
Lemma clearOldMarkers_active errors s :
  activeEditor s = Some ed →
  Forall (λ g, g ≠ []) errors →
  ∃ s', clearOldMarkers errors s = Ok () s' ∧
    ui_step s s' ∧
    statusBar s' = statusBar s ∧
    markers_of s' (editor_id ed) = ∅ ∧
    (∀ k m, markers_of s (editor_id ed) !! k = Some m →
            DestroyMarker m ∈ new_events s s') ∧
    marker_creations (new_events s s') = [].
Proof.
  intros Ha Hne. unfold clearOldMarkers.
  erewrite bind_Ok; [|by apply map_each_rows].
  erewrite bind_Ok; [|by apply getMarkersForEditor_active].
  unfold keys.
  destruct (clear_loop (rows_of errors)
              (map_to_list (markers_of s (editor_id ed))).*1 s Ha)
    as (s' & Hrun & Hui & Hbar & Hm & Hev & Hnew).
  exists s'. split_and!; [done..| | |done].
  - by rewrite Hm, foldl_delete_keys.
  - intros k m Hk. apply (Hev k); [|done].
    apply list_elem_of_fmap. exists (k, m). split; [done|].
    by apply elem_of_map_to_list.
Qed.
End Store.

(** *** The status bar *)

Lemma first_compact_least {A} (arr : list (option A)) l v :
  array_get arr l = Some v →
  (∀ l', l' < l → array_get arr l' = None) →
  first (compact arr) = Some v.
Proof.
  revert l. induction arr as [|o arr IH]; intros l Hl Hleast.
  { by rewrite array_get_nil in Hl. }
  destruct l as [|l].
  - unfold array_get in Hl. simpl in Hl. by subst o.
  - pose proof (Hleast 0 ltac:(lia)) as H0. unfold array_get in H0.
    simpl in H0. subst o. simpl. apply (IH l); [done|].
    intros l' Hl'. apply (Hleast (S l')). lia.
Qed.

Lemma updateStatusbar_no_bar s :
  statusBar s = None → updateStatusbar s = Ok () s.
Proof. intros Hb. unfold updateStatusbar. run. by rewrite Hb. Qed.

Lemma updateStatusbar_no_errors s ed bar :
  activeEditor s = Some ed →
  statusBar s = Some bar →
  errorsByEditorId s !! editor_id ed = None →
  updateStatusbar s = Ok () (with_statusBar without_summary s).
Proof.
  intros Ha Hb He. unfold updateStatusbar. run. by rewrite Hb, Ha, He.
Qed.

Lemma updateStatusbar_group s ed bar ret d rest :
  activeEditor s = Some ed →
  statusBar s = Some bar →
  errorsByEditorId s !! editor_id ed = Some ret →
  match array_get ret (cursor_row ed + 1) with
  | Some g => Some g
  | None => first (compact ret)
  end = Some (d :: rest) →
  updateStatusbar s =
  Ok () (with_statusBar (λ items, items ++ [summary_element d])
           (with_statusBar without_summary s)).
Proof.
  intros Ha Hb He Hg. unfold updateStatusbar. run.
  by rewrite Hb, Ha, He, Hg.
Qed.

Lemma updateStatusbar_ok s ed :
  activeEditor s = Some ed →
  (∀ ret, errorsByEditorId s !! editor_id ed = Some ret → well_formed_errors ret) →
  ∃ s', updateStatusbar s = Ok () s' ∧
    ui_step s s' ∧
    markersByEditorId s' = markersByEditorId s ∧
    liveMarkers s' = liveMarkers s ∧
    nextMarkerId s' = nextMarkerId s ∧
    trace s' = trace s.
Proof.
  intros Ha Hwf. destruct (statusBar s) as [bar|] eqn:Hb.
  2: { exists s. rewrite updateStatusbar_no_bar by done.
       split_and!; [done|apply ui_step_refl|done..]. }
  destruct (errorsByEditorId s !! editor_id ed) as [ret|] eqn:He.
  2: { eexists. rewrite (updateStatusbar_no_errors s ed bar) by done.
       split_and!; [done|apply ui_step_statusBar|done..]. }
  destruct (Hwf ret eq_refl) as [Hne Hall].
  assert (∃ d rest,
    match array_get ret (cursor_row ed + 1) with
    | Some g => Some g
    | None => first (compact ret)
    end = Some (d :: rest)) as (d & rest & Hg).
  { destruct (array_get ret (cursor_row ed + 1)) as [g|] eqn:Hc.
    - assert (g ∈ compact ret) as Hin by (apply elem_of_compact; eauto).
      rewrite Forall_forall in Hall. apply Hall in Hin.
      destruct g as [|d rest]; [done|]. eauto.
    - destruct (compact ret) as [|g gs] eqn:Hcr; [done|].
      apply Forall_cons in Hall as [Hg _].
      destruct g as [|d rest]; [done|]. simpl. eauto. }
  eexists. rewrite (updateStatusbar_group s ed bar ret d rest) by done.
  split_and!; [done| |done..].
  eapply ui_step_trans; apply ui_step_statusBar.
Qed.

(** *** Creating markers *)

Section Display.
Variable ed : Editor.

Lemma saveMarker_active s marker row :
  activeEditor s = Some ed →
  saveMarker marker row s =
  Ok () (with_markers
           <[editor_id ed :=
               <[to_property_key row := marker]> (markers_of s (editor_id ed))]>
           s).
Proof.
  intros Ha. unfold saveMarker, markers_of. run. rewrite Ha. simpl.
  f_equal. unfold with_markers. simpl. f_equal.
  destruct (markersByEditorId s !! editor_id ed) as [ms|] eqn:Hms; simpl.
  - by rewrite Hms.
  - by rewrite lookup_insert_eq, insert_insert_eq.
Qed.

(** [displayError] leaves a marked row alone and marks an unmarked one
    with a marker it has just created. *)
Lemma displayError_active s error row :
  activeEditor s = Some ed →
  getRowForError error = Some row →
  ∃ s', displayError error s = Ok () s' ∧
    ui_step s s' ∧
    dom (markers_of s' (editor_id ed)) =
      {[show row]} ∪ dom (markers_of s (editor_id ed)) ∧
    (anchored s (editor_id ed) → anchored s' (editor_id ed)) ∧
    (∀ k m, markers_of s' (editor_id ed) !! k = Some m →
       markers_of s (editor_id ed) !! k = Some m ∨
       MarkBufferRange m ∈ new_events s s') ∧
    (is_Some (markers_of s (editor_id ed) !! show row) → s' = s) ∧
    markers_of s (editor_id ed) ⊆ markers_of s' (editor_id ed) ∧
    (∀ m, MarkBufferRange m ∈ new_events s s' →
          markers_of s' (editor_id ed) !! show (marker_row m) = Some m).
Proof.
  intros Ha Hrow. unfold displayError.
  erewrite bind_Ok; [|by run; rewrite Hrow].
  erewrite bind_Ok; [|by apply getMarkerAtRow_active].
  simpl.
  destruct (markers_of s (editor_id ed) !! show row) as [m|] eqn:Hm.
  { exists s. rewrite new_events_refl.
    split_and!; [done|apply ui_step_refl| |done|by left|done|done|].
    - apply elem_of_dom_2 in Hm. set_solver.
    - by intros m' ?%elem_of_nil. }
  erewrite bind_Ok; [|by run].
  erewrite bind_Ok; [|by run; rewrite Ha].
  erewrite bind_Ok; [|by unfold markBufferRange].
  erewrite bind_Ok; [|by unfold decorateMarker; run].
  erewrite bind_Ok; [|by unfold decorateMarker; run].
  erewrite bind_Ok; [|by apply saveMarker_active].
  unfold addReasons. erewrite bind_Ok; [|by run; rewrite Hrow].
  run. eexists. split; [done|].
  split_and!.
  - split; simpl; [done..|lia|].
    eexists. rewrite <- !app_assoc. split; [done|]. by repeat constructor.
  - unfold markers_of at 1. simpl. rewrite lookup_insert_eq. simpl.
    by rewrite dom_insert_L.
  - intros [Hlive Hkey Hfresh].
    split; unfold markers_of at 1; simpl; rewrite lookup_insert_eq; simpl;
      intros k m' [[<- <-]|[Hne Hk]]%lookup_insert_Some; simpl.
    + set_solver.
    + apply Hlive in Hk. set_solver.
    + done.
    + by eapply Hkey.
    + lia.
    + apply Hfresh in Hk. lia.
  - unfold markers_of at 1. simpl. rewrite lookup_insert_eq. simpl.
    intros k m' [[<- <-]|[Hne Hk]]%lookup_insert_Some; [right|by left].
    erewrite new_events_app; [|simpl; by rewrite <- !app_assoc]. left.
  - by intros [? ?].
  - unfold markers_of at 2. simpl. rewrite lookup_insert_eq. simpl.
    by apply insert_subseteq.
  - erewrite new_events_app; [|simpl; by rewrite <- !app_assoc].
    intros m' Hin. unfold markers_of. simpl. rewrite lookup_insert_eq. simpl.
    apply elem_of_cons in Hin as [[= ->]|Hin]; [by rewrite lookup_insert_eq|].
    exfalso. set_solver.
Qed.

(** [displayError] on a row without a marker, told in full. *)
Lemma displayError_unmarked s error row :
  activeEditor s = Some ed →
  getRowForError error = Some row →
  markers_of s (editor_id ed) !! show row = None →
  ∃ s', displayError error s = Ok () s' ∧
    new_events s s' =
      [MarkBufferRange {| marker_id := nextMarkerId s; marker_row := row |};
       DecorateMarker {| marker_id := nextMarkerId s; marker_row := row |}
         "line" "jshint-line";
       DecorateMarker {| marker_id := nextMarkerId s; marker_row := row |}
         "gutter" "jshint-line-number";
       DestroyTooltip row;
       SetTooltip row
         {| el_tag := "div"; el_id := ""; el_class := "jshint-errors";
            el_inner := join "<br />" (getReasonsForError error) |};
       OnChangedDestroyed {| marker_id := nextMarkerId s; marker_row := row |}] ∧
    markers_of s' (editor_id ed) =
      <[show row := {| marker_id := nextMarkerId s; marker_row := row |}]>
        (markers_of s (editor_id ed)) ∧
    liveMarkers s' = {[nextMarkerId s]} ∪ liveMarkers s ∧
    nextMarkerId s' = S (nextMarkerId s).
Proof.
  intros Ha Hrow Hnone. unfold displayError.
  erewrite bind_Ok; [|by run; rewrite Hrow].
  erewrite bind_Ok; [|by apply (getMarkerAtRow_active ed)].
  simpl. rewrite Hnone.
  erewrite bind_Ok; [|by run].
  erewrite bind_Ok; [|by run; rewrite Ha].
  erewrite bind_Ok; [|by unfold markBufferRange].
  erewrite bind_Ok; [|by unfold decorateMarker; run].
  erewrite bind_Ok; [|by unfold decorateMarker; run].
  erewrite bind_Ok; [|by apply saveMarker_active].
  unfold addReasons. erewrite bind_Ok; [|by run; rewrite Hrow].
  run. eexists. split; [done|]. split_and!.
  - apply new_events_app. simpl. by rewrite <- !app_assoc.
  - unfold markers_of at 1. simpl. by rewrite lookup_insert_eq.
  - done.
  - done.
Qed.

Lemma display_loop errors s :
  activeEditor s = Some ed →
  Forall (λ g, g ≠ []) errors →
  ∃ s', each errors displayError s = Ok () s' ∧
    ui_step s s' ∧
    dom (markers_of s' (editor_id ed)) =
      list_to_set (show <$> rows_of errors) ∪ dom (markers_of s (editor_id ed)) ∧
    (anchored s (editor_id ed) → anchored s' (editor_id ed)) ∧
    (∀ k m, markers_of s' (editor_id ed) !! k = Some m →
       markers_of s (editor_id ed) !! k = Some m ∨
       MarkBufferRange m ∈ new_events s s') ∧
    markers_of s (editor_id ed) ⊆ markers_of s' (editor_id ed) ∧
    (∀ m, MarkBufferRange m ∈ new_events s s' →
          markers_of s' (editor_id ed) !! show (marker_row m) = Some m).
Proof.
  intros Ha Hne. revert s Ha.
  induction Hne as [|g errors Hg _ IH]; intros s Ha.
  { exists s. rewrite new_events_refl.
    split_and!; [done|apply ui_step_refl|set_solver|done|by left|done|].
    by intros m ?%elem_of_nil. }
  destruct g as [|d rest]; [done|].
  destruct (displayError_active s (d :: rest) _ Ha eq_refl)
    as (s1 & Hrun & Hui & Hdom & Hanch & Hev & _ & Hsub & Hsto).
  destruct (IH s1)
    as (s2 & Hrun2 & Hui2 & Hdom2 & Hanch2 & Hev2 & Hsub2 & Hsto2).
  { by rewrite (ui_editor _ _ Hui). }
  exists s2. rewrite (new_events_ui_trans s s1 s2) by done. split_and!.
  - simpl. by erewrite bind_Ok.
  - by eapply ui_step_trans.
  - rewrite Hdom2, Hdom. unfold rows_of. simpl. set_solver.
  - eauto.
  - intros k m Hk.
    destruct (Hev2 k m Hk) as [Hk1|Hnew].
    + destruct (Hev k m Hk1) as [?|Hnew]; [by left|right].
      apply elem_of_app. by left.
    + right. apply elem_of_app. by right.
  - by etrans.
  - intros m [Hin|Hin]%elem_of_app; [|by apply Hsto2].
    eapply lookup_weaken; [by apply Hsto|done].
Qed.

(** Reconciliation: whatever the store held is destroyed, and the store
    ends up holding one newly created marker for each row of the new
    groups and nothing else. *)
Lemma displayErrors_active errors s :
  activeEditor s = Some ed →
  Forall (λ g, g ≠ []) errors →
  (∀ ret, errorsByEditorId s !! editor_id ed = Some ret → well_formed_errors ret) →
  ∃ s', displayErrors errors s = Ok () s' ∧
    ui_step s s' ∧
    dom (markers_of s' (editor_id ed)) = list_to_set (show <$> rows_of errors) ∧
    anchored s' (editor_id ed) ∧
    (∀ k m, markers_of s (editor_id ed) !! k = Some m →
            DestroyMarker m ∈ new_events s s') ∧
    (∀ k m, markers_of s' (editor_id ed) !! k = Some m →
            MarkBufferRange m ∈ new_events s s') ∧
    (∀ m, MarkBufferRange m ∈ new_events s s' →
          markers_of s' (editor_id ed) !! show (marker_row m) = Some m).
Proof.
  intros Ha Hne Hwf. unfold displayErrors.
  destruct (clearOldMarkers_active ed errors s Ha Hne)
    as (s1 & Hrun1 & Hui1 & Hbar1 & Hm1 & Hev1 & Hnew1).
  destruct (updateStatusbar_ok s1 ed)
    as (s2 & Hrun2 & Hui2 & Hm2 & Hl2 & Hn2 & Htr2).
  { by rewrite (ui_editor _ _ Hui1). }
  { by rewrite (ui_errors _ _ Hui1). }
  destruct (display_loop errors s2)
    as (s3 & Hrun3 & Hui3 & Hdom3 & Hanch3 & Hev3 & _ & Hsto3).
  { by rewrite (ui_editor _ _ Hui2), (ui_editor _ _ Hui1). }
  { done. }
  assert (markers_of s2 (editor_id ed) = ∅) as Hempty.
  { unfold markers_of. rewrite Hm2. exact Hm1. }
  assert (ui_step s s2) as Hui12 by (by eapply ui_step_trans).
  assert (new_events s s2 = new_events s s1) as Hsame.
  { rewrite (new_events_ui_trans s s1 s2) by done.
    rewrite (new_events_app s1 s2 []) by (by rewrite app_nil_r).
    by rewrite app_nil_r. }
  exists s3. rewrite (new_events_ui_trans s s2 s3), Hsame by done. split_and!.
  - erewrite bind_Ok by exact Hrun1. by erewrite bind_Ok by exact Hrun2.
  - by eapply ui_step_trans.
  - rewrite Hdom3, Hempty. set_solver.
  - apply Hanch3. split; intros k m; by rewrite Hempty, lookup_empty.
  - intros k m Hk. apply elem_of_app. left. by eapply Hev1.
  - intros k m Hk. apply elem_of_app. right.
    destruct (Hev3 k m Hk) as [Hold|Hnew]; [|done].
    by rewrite Hempty, lookup_empty in Hold.
  - intros m [Hin|Hin]%elem_of_app; [|by apply Hsto3].
    exfalso. unfold marker_creations in Hnew1.
    assert (MarkBufferRange m ∈ filter (λ e, is_marker_creation e = true)
                                   (new_events s s1)) as Hf
      by (by apply list_elem_of_filter).
    rewrite Hnew1 in Hf. by apply elem_of_nil in Hf.
Qed.
End Display.

(** ** The lint pass *)

Lemma supported_decide ed :
  supported ed ↔ grammar_name ed ∈ ["JavaScript"; "JavaScript (JSX)"].
Proof. unfold supported. set_solver. Qed.

Section LintFacts.
Context {Config : Type}.
Variable emptyConfig : Config.
Variable loadConfig : string → Exn + Config.
Variable jshint jsxhint : string → Config → Exn + list (option Diagnostic).

Lemma state_eq (s1 s2 : State) :
  markersByEditorId s1 = markersByEditorId s2 →
  errorsByEditorId s1 = errorsByEditorId s2 →
  activeEditor s1 = activeEditor s2 →
  statusBar s1 = statusBar s2 →
  settings s1 = settings s2 →
  liveMarkers s1 = liveMarkers s2 →
  nextMarkerId s1 = nextMarkerId s2 →
  trace s1 = trace s2 →
  s1 = s2.
Proof. destruct s1, s2; simpl; intros; by subst. Qed.

(** The pass up to and including the engine call. *)
Lemma lint_prefix s ed :
  activeEditor s = Some ed →
  supported ed →
  lint emptyConfig loadConfig jshint jsxhint s =
  match resolve_config emptyConfig loadConfig ed with
  | inl e => Throw e (after_config ed s)
  | inr cfg =>
      match selected_linter jshint jsxhint s (text ed) cfg with
      | inl e => Throw e (after_engine ed s)
      | inr raw =>
          (removeErrorsForEditorId (editor_id ed);;
           groups ←
             (if decide (0 < length (compact raw)) then
                modify (with_errors <[editor_id ed := aggregate (compact raw)]>);;
                mret (compact (aggregate (compact raw)))
              else mret []);
           displayErrors groups) (after_engine ed s)
      end
  end.
Proof.
  intros Ha Hsup. unfold lint.
  erewrite bind_Ok; [|by run]. rewrite Ha.
  rewrite bool_decide_eq_true_2 by (by apply supported_decide).
  cbv zeta.
  assert (∀ s0 : State, settings s0 = settings s →
    config_get_either "jshint.supportLintingJsx" "jshint.transformJsx" s0
    = Ok (jsx_enabled s) s0) as Hjsx.
  { intros s0 Hs0. unfold config_get_either, jsx_enabled. run. rewrite Hs0.
    destruct (default false (settings s !! "jshint.supportLintingJsx"));
      simpl; by rewrite ?Hs0. }
  unfold resolve_config, after_config, after_engine, config_events,
    selected_engine, selected_linter, call.
  destruct (truthy_string (uri ed)) as [f|].
  - destruct (loadConfig f) as [e|cfg].
    { by run. }
    erewrite bind_Ok; [|by run].
    erewrite bind_Ok; [|by apply Hjsx].
    destruct (jsx_enabled s);
      [destruct (jsxhint (text ed) cfg) as [e|raw]
      |destruct (jshint (text ed) cfg) as [e|raw]].
    all: run; try (f_equal; apply state_eq; simpl; try done;
                   by rewrite <- app_assoc).
    all: match goal with
         | |- context [with_host id ?n [?ev] (with_host id ?n' [?ev'] ?s0)] =>
             replace (with_host id n [ev] (with_host id n' [ev'] s0))
               with (with_host id (nextMarkerId s0) ([ev'] ++ [ev]) s0);
               [done|]
         end.
    all: apply state_eq; simpl; try done; by rewrite <- app_assoc.
  - erewrite bind_Ok; [|by run].
    erewrite bind_Ok; [|by apply Hjsx].
    destruct (jsx_enabled s);
      [destruct (jsxhint (text ed) emptyConfig) as [e|raw]
      |destruct (jshint (text ed) emptyConfig) as [e|raw]];
      by run.
Qed.

Lemma groups_of_nonempty raw : Forall (λ g, g ≠ []) (groups_of raw).
Proof.
  apply Forall_forall. intros g Hg. by eapply aggregate_group_nonempty.
Qed.

Lemma aggregate_well_formed errors :
  errors ≠ [] → well_formed_errors (aggregate errors).
Proof.
  intros Hne. split; [by apply aggregate_nonempty|].
  apply Forall_forall. intros g Hg. by eapply aggregate_group_nonempty.
Qed.

(** A pass whose configuration resolves and whose engine returns. *)
Lemma lint_pass s ed cfg raw :
  activeEditor s = Some ed →
  supported ed →
  resolve_config emptyConfig loadConfig ed = inr cfg →
  selected_linter jshint jsxhint s (text ed) cfg = inr raw →
  ∃ s' evs, lint emptyConfig loadConfig jshint jsxhint s = Ok () s' ∧
    dom (markers_of s' (editor_id ed)) =
      list_to_set (show <$> rows_of (groups_of raw)) ∧
    anchored s' (editor_id ed) ∧
    errorsByEditorId s' !! editor_id ed =
      (if decide (compact raw = []) then None
       else Some (aggregate (compact raw))) ∧
    trace s' = trace s ++ config_events ed
               ++ [RunEngine (selected_engine s) (text ed)] ++ evs ∧
    Forall is_ui_event evs ∧
    (∀ k m, markers_of s (editor_id ed) !! k = Some m → DestroyMarker m ∈ evs) ∧
    (∀ k m, markers_of s' (editor_id ed) !! k = Some m → MarkBufferRange m ∈ evs) ∧
    (∀ m, MarkBufferRange m ∈ evs →
          markers_of s' (editor_id ed) !! show (marker_row m) = Some m).
Proof.
  intros Ha Hsup Hcfg Hraw. rewrite (lint_prefix s ed) by done.
  rewrite Hcfg, Hraw.
  erewrite bind_Ok; [|by unfold removeErrorsForEditorId; run].
  set (s1 := with_errors (delete (editor_id ed)) (after_engine ed s)).
  destruct (decide (0 < length (compact raw))) as [Hlen|Hlen].
  - erewrite bind_Ok; [|by run].
    set (s2 := with_errors <[editor_id ed := aggregate (compact raw)]> s1).
    assert (compact raw ≠ []) as Hne
      by (intros E; rewrite E in Hlen; simpl in Hlen; lia).
    destruct (displayErrors_active ed (groups_of raw) s2)
      as (s' & Hrun & Hui & Hdom & Hanch & Hdes & Hcre & Hsto).
    { done. }
    { apply groups_of_nonempty. }
    { intros ret. subst s2. simpl. rewrite lookup_insert_eq.
      intros [= <-]. by apply aggregate_well_formed. }
    destruct (ui_trace _ _ Hui) as (evs & Htr & Hevs).
    rewrite (new_events_app _ _ _ Htr) in Hdes, Hcre, Hsto.
    exists s', evs. split_and!; [done..| | |done|done|done|done].
    + rewrite (ui_errors _ _ Hui). subst s2. simpl.
      rewrite lookup_insert_eq. by rewrite decide_False.
    + rewrite Htr. subst s2 s1. simpl. by rewrite <- !app_assoc.
  - assert (compact raw = []) as Hnil
      by (destruct (compact raw); [done|simpl in Hlen; lia]).
    erewrite bind_Ok; [|by run].
    destruct (displayErrors_active ed [] s1)
      as (s' & Hrun & Hui & Hdom & Hanch & Hdes & Hcre & Hsto).
    { done. }
    { done. }
    { intros ret. subst s1. simpl. by rewrite lookup_delete_eq. }
    destruct (ui_trace _ _ Hui) as (evs & Htr & Hevs).
    rewrite (new_events_app _ _ _ Htr) in Hdes, Hcre, Hsto.
    exists s', evs. split_and!; [done| |done| | |done|done|done|done].
    + unfold groups_of. rewrite Hnil. exact Hdom.
    + rewrite (ui_errors _ _ Hui). subst s1. simpl.
      rewrite lookup_delete_eq. by rewrite decide_True.
    + rewrite Htr. subst s1. simpl. by rewrite <- !app_assoc.
Qed.
End LintFacts.

(** ** Aggregation: how the groups are keyed and ordered *)

(** C3, refuted as stated: the aggregated array is not keyed by the row
    [line - 1].  The diagnostic of line 3 is not found at key 2, and the
    configuration error of line 0 is not found at key -1. *)
Lemma aggregate_not_keyed_by_row :
  ¬ (∀ (errors : list Diagnostic) (d : Diagnostic), d ∈ errors →
       ∃ g, array_get_Z (aggregate errors) (spec_row_key d) = Some g ∧ d ∈ g)
  ∧ array_get_Z (aggregate [missing_semicolon]) 2 = None
  ∧ array_get_Z (aggregate [bad_option]) (-1) = None
  ∧ array_get (aggregate [bad_option]) 0 = Some [bad_option].
Proof.
  split_and!; [|done..].
  intros H. destruct (H [missing_semicolon] missing_semicolon) as (g & Hg & _).
  { by apply list_elem_of_singleton. }
  by vm_compute in Hg.
Qed.

(** C3, amended: aggregation keys each group by the line number itself.
    A diagnostic is found in the group stored at index [line], that group
    holds exactly the diagnostics of that line, and a configuration error
    (line 0) is therefore stored at index 0. *)
Theorem aggregate_keyed_by_line (errors : list Diagnostic) (d : Diagnostic) :
  d ∈ errors →
  ∃ g, array_get (aggregate errors) (line d) = Some g ∧
       d ∈ g ∧
       g ≡ₚ filter (λ d', line d' = line d) errors ∧
       (line d = 0 → array_get (aggregate errors) 0 = Some g).
Proof.
  intros Hd. pose proof (aggregate_get errors (line d)) as H.
  destruct (array_get (aggregate errors) (line d)) as [g|] eqn:Hg.
  - destruct H as (Hp & _ & _). exists g. split_and!; [done| |done|].
    + rewrite Hp. unfold group_of_line. by apply list_elem_of_filter.
    + intros H0. by rewrite <- H0.
  - exfalso. unfold group_of_line in H.
    assert (d ∈ filter (λ d', line d' = line d) errors) as Hin
      by (by apply list_elem_of_filter).
    rewrite H in Hin. by apply elem_of_nil in Hin.
Qed.

Lemma aggregate_keyed_by_line_witness :
  ∃ g, array_get (aggregate [missing_semicolon; bad_option; unused_variable])
         (line bad_option) = Some g ∧
       bad_option ∈ g ∧
       g ≡ₚ filter (λ d', line d' = line bad_option)
              [missing_semicolon; bad_option; unused_variable] ∧
       (line bad_option = 0 →
        array_get (aggregate [missing_semicolon; bad_option; unused_variable]) 0
        = Some g).
Proof.
  apply (aggregate_keyed_by_line
           [missing_semicolon; bad_option; unused_variable] bad_option).
  apply list_elem_of_In. simpl. right. left. reflexivity.
Defined.

(** C4: every group of the aggregation is sorted by ascending character,
    holds diagnostics of one line only (the line it is stored at), and no
    diagnostics give the empty array, hence no groups. *)
Theorem aggregate_sorted_unmerged (errors : list Diagnostic) (l : nat)
    (g : list Diagnostic) :
  array_get (aggregate errors) l = Some g →
  StronglySorted (λ a b, character a ≤ character b) g ∧
  (∀ d, d ∈ g → line d = l ∧ d ∈ errors) ∧
  aggregate [] = [] ∧
  compact (aggregate []) = [].
Proof.
  intros Hg. pose proof (aggregate_get errors l) as H. rewrite Hg in H.
  destruct H as (Hp & _ & Hs). split_and!; [exact Hs| |done..].
  intros d Hd. rewrite Hp in Hd. unfold group_of_line in Hd.
  by apply list_elem_of_filter in Hd.
Qed.

Lemma aggregate_sorted_unmerged_witness :
  StronglySorted (λ a b, character a ≤ character b)
    [unused_variable; missing_semicolon] ∧
  (∀ d, d ∈ [unused_variable; missing_semicolon] →
        line d = 3 ∧
        d ∈ [missing_semicolon; undefined_name; unused_variable]) ∧
  aggregate [] = [] ∧
  compact (aggregate []) = [].
Proof.
  apply (aggregate_sorted_unmerged
           [missing_semicolon; undefined_name; unused_variable] 3
           [unused_variable; missing_semicolon]).
  reflexivity.
Defined.

(** ** Rows of configuration errors *)

(** C10: a group whose first diagnostic has line 0 gets row 0 from
    [getRowForError], the row of a line-1 group, and [displayError] marks
    the first row of the buffer for it.  Where that row has no marker
    yet, the one marker it asks the host for is a marker of row 0; it
    decorates the line and the gutter of that marker and stores it under
    row 0, live.  Where the row is marked already it leaves the marker
    there.  Either way row 0 is marked afterwards, and in an anchored
    store by a live marker of row 0. *)
Theorem config_error_marked_on_first_row (s : State) (ed : Editor)
    (d : Diagnostic) (rest : list Diagnostic) :
  line d = 0 →
  getRowForError (d :: rest) = Some 0 ∧
  (∀ d1 rest1, line d1 = 1 →
     getRowForError (d1 :: rest1) = getRowForError (d :: rest)) ∧
  (activeEditor s = Some ed →
   ∃ s', displayError (d :: rest) s = Ok () s' ∧
     is_Some (markers_of s' (editor_id ed) !! to_property_key (RowNum 0)) ∧
     (markers_of s (editor_id ed) !! to_property_key (RowNum 0) = None →
      marker_creations (new_events s s') =
        [MarkBufferRange {| marker_id := nextMarkerId s; marker_row := 0 |}] ∧
      DecorateMarker {| marker_id := nextMarkerId s; marker_row := 0 |}
        "line" "jshint-line" ∈ new_events s s' ∧
      DecorateMarker {| marker_id := nextMarkerId s; marker_row := 0 |}
        "gutter" "jshint-line-number" ∈ new_events s s' ∧
      markers_of s' (editor_id ed) !! to_property_key (RowNum 0) =
        Some {| marker_id := nextMarkerId s; marker_row := 0 |} ∧
      nextMarkerId s ∈ liveMarkers s') ∧
     (is_Some (markers_of s (editor_id ed) !! to_property_key (RowNum 0)) →
      s' = s) ∧
     (anchored s (editor_id ed) →
      ∃ marker,
        markers_of s' (editor_id ed) !! to_property_key (RowNum 0) = Some marker ∧
        marker_row marker = 0 ∧
        marker_id marker ∈ liveMarkers s')).
Proof.
  intros Hd.
  assert (getRowForError (d :: rest) = Some 0) as Hrow
    by (simpl; by rewrite Hd).
  split_and!; [done| |].
  - intros d1 rest1 H1. rewrite Hrow. simpl. by rewrite H1.
  - intros Ha.
    destruct (displayError_active ed s (d :: rest) 0 Ha Hrow)
      as (s' & Hrun & _ & Hdom & Hanch & _ & Hsame & _).
    assert (is_Some (markers_of s' (editor_id ed) !! to_property_key (RowNum 0)))
      as Hsome.
    { apply elem_of_dom. rewrite Hdom. simpl. set_solver. }
    exists s'. split_and!; [done|done| |done|].
    + intros Hnone.
      destruct (displayError_unmarked ed s (d :: rest) 0 Ha Hrow Hnone)
        as (s1 & Hrun1 & Hev & Hm & Hlive & _).
      assert (s1 = s') as -> by congruence.
      rewrite Hev, Hm, Hlive. split_and!.
      * done.
      * rewrite !elem_of_cons. by right; left.
      * rewrite !elem_of_cons. by right; right; left.
      * apply lookup_insert_eq.
      * set_solver.
    + intros Hanc. destruct (Hanch Hanc) as [Hlive Hkey _].
      destruct Hsome as [marker Hmarker]. exists marker.
      split_and!; [done| |by eapply Hlive].
      apply Hkey in Hmarker. simpl in Hmarker.
      symmetry. by apply (inj show).
Qed.

Lemma config_error_marked_on_first_row_witness :
  getRowForError [bad_option] = Some 0 ∧
  getRowForError [first_line] = getRowForError [bad_option] ∧
  ∃ s', displayError [bad_option] (fresh_state (Some editor1)) = Ok () s' ∧
    marker_creations (new_events (fresh_state (Some editor1)) s') =
      [MarkBufferRange {| marker_id := 0; marker_row := 0 |}] ∧
    markers_of s' (editor_id editor1) !! to_property_key (RowNum 0) =
      Some {| marker_id := 0; marker_row := 0 |} ∧
    0 ∈ liveMarkers s'.
Proof.
  destruct (config_error_marked_on_first_row
              (fresh_state (Some editor1)) editor1 bad_option [])
    as (Hrow & Hsame & Hshow).
  { reflexivity. }
  split; [exact Hrow|]. split.
  { apply Hsame. reflexivity. }
  destruct Hshow as (s' & Hrun & _ & Hnew & _).
  { reflexivity. }
  destruct Hnew as (Hcre & _ & _ & Hsto & Hlive).
  { reflexivity. }
  exists s'. split; [exact Hrun|]. split; [exact Hcre|].
  split; [exact Hsto|exact Hlive].
Defined.

(** ** The status bar summary *)

(** C5: with a status bar and an active editor, [updateStatusbar] first
    removes the previous summary; it appends nothing when the editor has
    no error state; otherwise it appends the summary of the first
    diagnostic of the group stored for the cursor's line (row + 1), or,
    when there is none, of the group at the least index of the array. *)
Theorem updateStatusbar_summary (s : State) (ed : Editor) (bar : list Element) :
  activeEditor s = Some ed →
  statusBar s = Some bar →
  (errorsByEditorId s !! editor_id ed = None →
   ∃ s', updateStatusbar s = Ok () s' ∧
         statusBar s' = Some (without_summary bar)) ∧
  (∀ ret l d rest,
     errorsByEditorId s !! editor_id ed = Some ret →
     array_get ret l = Some (d :: rest) →
     l = cursor_row ed + 1 ∨
     (array_get ret (cursor_row ed + 1) = None ∧
      ∀ l', l' < l → array_get ret l' = None) →
     ∃ s', updateStatusbar s = Ok () s' ∧
           statusBar s' = Some (without_summary bar ++ [summary_element d]) ∧
           el_inner (summary_element d) =
             "JSHint " +:+ show (line d) +:+ ":" +:+ show (character d)
             +:+ " " +:+ reason d).
Proof.
  intros Ha Hb. split.
  - intros He. eexists. split; [by eapply updateStatusbar_no_errors|].
    simpl. by rewrite Hb.
  - intros ret l d rest He Hl Hcase. eexists. split.
    + eapply updateStatusbar_group; [done..|].
      destruct Hcase as [->|[Hnone Hleast]].
      * by rewrite Hl.
      * rewrite Hnone. by eapply first_compact_least.
    + simpl. by rewrite Hb.
Qed.

Lemma updateStatusbar_summary_witness :
  ∃ s', updateStatusbar summary_state = Ok () s' ∧
        statusBar s' = Some ([] ++ [summary_element missing_semicolon]) ∧
        el_inner (summary_element missing_semicolon) =
          "JSHint 3:4 Missing semicolon".
Proof.
  refine (proj2 (updateStatusbar_summary summary_state editor1
                   [summary_element first_line] _ _)
            (aggregate [missing_semicolon; undefined_name]) 3
            missing_semicolon [] _ _ _).
  - reflexivity.
  - reflexivity.
  - reflexivity.
  - reflexivity.
  - right. split; [reflexivity|].
    intros l' Hl'.
    destruct l' as [|[|[|l']]]; [reflexivity..|lia].
Defined.

(** ** Editors that are not linted *)

(** C7: without a current editor, or with one whose grammar is neither
    JavaScript nor JavaScript (JSX), [lint] returns at once: the state is
    the one it started from, so no engine was called and every editor
    keeps its markers and its error state. *)
Theorem lint_skips_unsupported {Config : Type} (emptyConfig : Config)
    (loadConfig : string → Exn + Config)
    (jshint jsxhint : string → Config → Exn + list (option Diagnostic))
    (s : State) :
  activeEditor s = None ∨
  (∃ ed, activeEditor s = Some ed ∧
         grammar_name ed ≠ "JavaScript" ∧
         grammar_name ed ≠ "JavaScript (JSX)") →
  lint emptyConfig loadConfig jshint jsxhint s = Ok () s ∧
  engine_calls (new_events s (state_of (lint emptyConfig loadConfig jshint jsxhint s))) = [] ∧
  ∀ id, markersByEditorId (state_of (lint emptyConfig loadConfig jshint jsxhint s)) !! id
        = markersByEditorId s !! id ∧
        errorsByEditorId (state_of (lint emptyConfig loadConfig jshint jsxhint s)) !! id
        = errorsByEditorId s !! id.
Proof.
  intros Hskip.
  assert (lint emptyConfig loadConfig jshint jsxhint s = Ok () s) as Hrun.
  { unfold lint. run. destruct Hskip as [->|(ed & -> & H1 & H2)]; [done|].
    rewrite bool_decide_eq_false_2; [done|].
    rewrite <- supported_decide. unfold supported. tauto. }
  rewrite Hrun. simpl. split_and!; [done| |done].
  unfold new_events. by rewrite drop_all.
Qed.

(** ** Choice of the engine *)

(** C8: a pass that reaches the engine calls exactly one engine, and it
    is the JSX-aware one exactly when [jshint.supportLintingJsx] or
    [jshint.transformJsx] is enabled, the standard one otherwise; the
    engine that is not selected has no part in the pass. *)
Theorem lint_selects_engine {Config : Type} (emptyConfig : Config)
    (loadConfig : string → Exn + Config)
    (jshint jsxhint : string → Config → Exn + list (option Diagnostic))
    (s : State) (ed : Editor) (cfg : Config) :
  activeEditor s = Some ed →
  supported ed →
  resolve_config emptyConfig loadConfig ed = inr cfg →
  ∃ which,
    engine_calls (new_events s (state_of (lint emptyConfig loadConfig jshint jsxhint s)))
      = [RunEngine which (text ed)] ∧
    (which = JSXHINT ↔
       enabled s "jshint.supportLintingJsx" ∨ enabled s "jshint.transformJsx") ∧
    (which = JSHINT ↔
       ¬ (enabled s "jshint.supportLintingJsx" ∨ enabled s "jshint.transformJsx")) ∧
    (which = JSXHINT → ∀ other,
       lint emptyConfig loadConfig other jsxhint s
       = lint emptyConfig loadConfig jshint jsxhint s) ∧
    (which = JSHINT → ∀ other,
       lint emptyConfig loadConfig jshint other s
       = lint emptyConfig loadConfig jshint jsxhint s).
Proof.
  intros Ha Hsup Hcfg. exists (selected_engine s).
  assert (engine_calls (config_events ed) = []) as Hc.
  { unfold config_events. by destruct (truthy_string (uri ed)). }
  assert (∀ evs, Forall is_ui_event evs → engine_calls evs = []) as Hui.
  { induction 1 as [|ev evs Hev _ IH]; [done|].
    unfold engine_calls in *. rewrite filter_cons, IH. by destruct ev. }
  assert (selected_engine s = JSXHINT ↔
          enabled s "jshint.supportLintingJsx" ∨ enabled s "jshint.transformJsx")
    as Hjsx.
  { unfold selected_engine, jsx_enabled, enabled.
    destruct (settings s !! "jshint.supportLintingJsx") as [[]|];
      destruct (settings s !! "jshint.transformJsx") as [[]|]; simpl;
      naive_solver. }
  split_and!.
  - destruct (selected_linter jshint jsxhint s (text ed) cfg) as [e|raw] eqn:Hrun.
    + rewrite (lint_prefix emptyConfig loadConfig jshint jsxhint s ed) by done.
      rewrite Hcfg, Hrun. simpl. erewrite new_events_app by done.
      unfold engine_calls in *. by rewrite filter_app, Hc.
    + destruct (lint_pass emptyConfig loadConfig jshint jsxhint s ed cfg raw)
        as (s' & evs & -> & _ & _ & _ & Htr & Hevs & _); [done..|].
      simpl. erewrite new_events_app by done.
      unfold engine_calls in *. rewrite !filter_app, Hc, (Hui evs Hevs).
      done.
  - done.
  - rewrite <- Hjsx. by destruct (selected_engine s).
  - intros Hsel other. rewrite !(lint_prefix _ _ _ _ s ed) by done.
    unfold selected_engine in Hsel. unfold selected_linter.
    by destruct (jsx_enabled s).
  - intros Hsel other. rewrite !(lint_prefix _ _ _ _ s ed) by done.
    unfold selected_engine in Hsel. unfold selected_linter.
    by destruct (jsx_enabled s).
Qed.

(** ** Failures of the collaborators *)

(** C6: when resolving the configuration or running the engine throws,
    the exception leaves [lint] uncaught, and the marker store, the error
    state, the live markers and the status bar are what they were: the
    pass has created and destroyed no marker. *)
Theorem lint_failure_is_atomic {Config : Type} (emptyConfig : Config)
    (loadConfig : string → Exn + Config)
    (jshint jsxhint : string → Config → Exn + list (option Diagnostic))
    (s : State) (ed : Editor) (e : Exn) :
  activeEditor s = Some ed →
  supported ed →
  resolve_config emptyConfig loadConfig ed = inl e ∨
  (∃ cfg, resolve_config emptyConfig loadConfig ed = inr cfg ∧
          selected_linter jshint jsxhint s (text ed) cfg = inl e) →
  ∃ s', lint emptyConfig loadConfig jshint jsxhint s = Throw e s' ∧
    markersByEditorId s' = markersByEditorId s ∧
    errorsByEditorId s' = errorsByEditorId s ∧
    liveMarkers s' = liveMarkers s ∧
    statusBar s' = statusBar s ∧
    marker_creations (new_events s s') = [] ∧
    marker_destructions (new_events s s') = [].
Proof.
  intros Ha Hsup Hfail.
  rewrite (lint_prefix emptyConfig loadConfig jshint jsxhint s ed) by done.
  assert (marker_creations (config_events ed) = [] ∧
          marker_destructions (config_events ed) = []) as [Hc Hd].
  { unfold config_events. by destruct (truthy_string (uri ed)). }
  destruct Hfail as [Hcfg|(cfg & Hcfg & Hrun)].
  - rewrite Hcfg. eexists. split; [done|]. split_and!; try done.
    + by erewrite new_events_app.
    + by erewrite new_events_app.
  - rewrite Hcfg, Hrun. eexists. split; [done|]. split_and!; try done.
    + erewrite new_events_app by done. unfold marker_creations in *.
      by rewrite filter_app, Hc.
    + erewrite new_events_app by done. unfold marker_destructions in *.
      by rewrite filter_app, Hd.
Qed.

Lemma lint_failure_is_atomic_witness :
  ∃ s', lint () load_ok (engine_reports []) engine_fails marked_state
        = Throw (Thrown "Maximum call stack size exceeded") s' ∧
    markersByEditorId s' = markersByEditorId marked_state ∧
    errorsByEditorId s' = errorsByEditorId marked_state ∧
    liveMarkers s' = liveMarkers marked_state ∧
    statusBar s' = statusBar marked_state ∧
    marker_creations (new_events marked_state s') = [] ∧
    marker_destructions (new_events marked_state s') = [].
Proof.
  apply (lint_failure_is_atomic () load_ok (engine_reports []) engine_fails marked_state editor1).
  - reflexivity.
  - left. reflexivity.
  - right. exists (). split; reflexivity.
Defined.

Lemma lint_skips_unsupported_witness :
  lint () load_ok (engine_reports []) engine_fails (with_editor (Some python_editor) marked_state)
  = Ok () (with_editor (Some python_editor) marked_state) ∧
  engine_calls
    (new_events (with_editor (Some python_editor) marked_state)
       (state_of (lint () load_ok (engine_reports []) engine_fails
                    (with_editor (Some python_editor) marked_state)))) = [] ∧
  ∀ id,
    markersByEditorId
      (state_of (lint () load_ok (engine_reports []) engine_fails
                   (with_editor (Some python_editor) marked_state))) !! id
    = markersByEditorId (with_editor (Some python_editor) marked_state) !! id ∧
    errorsByEditorId
      (state_of (lint () load_ok (engine_reports []) engine_fails
                   (with_editor (Some python_editor) marked_state))) !! id
    = errorsByEditorId (with_editor (Some python_editor) marked_state) !! id.
Proof.
  apply (lint_skips_unsupported () load_ok (engine_reports []) engine_fails
           (with_editor (Some python_editor) marked_state)).
  right. exists python_editor. split_and!; [reflexivity|discriminate..].
Defined.

Lemma lint_selects_engine_witness :
  ∃ which,
    engine_calls
      (new_events marked_state
         (state_of (lint () load_ok engine_fails
                      (engine_reports [Some missing_semicolon]) marked_state)))
      = [RunEngine which (text editor1)] ∧
    (which = JSXHINT ↔
       enabled marked_state "jshint.supportLintingJsx" ∨
       enabled marked_state "jshint.transformJsx") ∧
    (which = JSHINT ↔
       ¬ (enabled marked_state "jshint.supportLintingJsx" ∨
          enabled marked_state "jshint.transformJsx")) ∧
    (which = JSXHINT → ∀ other,
       lint () load_ok other (engine_reports [Some missing_semicolon]) marked_state
       = lint () load_ok engine_fails (engine_reports [Some missing_semicolon])
           marked_state) ∧
    (which = JSHINT → ∀ other,
       lint () load_ok engine_fails other marked_state
       = lint () load_ok engine_fails (engine_reports [Some missing_semicolon])
           marked_state).
Proof.
  apply (lint_selects_engine () load_ok engine_fails
           (engine_reports [Some missing_semicolon]) marked_state editor1 ()).
  - reflexivity.
  - left. reflexivity.
  - reflexivity.
Defined.

(** ** The store without an active editor *)

(** C9, refuted as stated: without an active editor the operations of the
    marker store are not all no-ops.  Destroying the marker of a row,
    saving one, looking one up and displaying an error read [editor.id]
    and fault. *)
Lemma store_operations_fault_without_editor :
  ¬ (∀ (s : State) (row : RowVal) (marker : Marker) (error : list Diagnostic),
       activeEditor s = None → error ≠ [] →
       clearOldMarkers [error] s = Ok () s ∧
       destroyMarkerAtRow row s = Ok () s ∧
       saveMarker marker row s = Ok () s ∧
       (∃ found, getMarkerAtRow row s = Ok found s) ∧
       displayError error s = Ok () s)
  ∧ destroyMarkerAtRow (RowNum 2) (fresh_state None)
    = Throw no_editor_fault (fresh_state None)
  ∧ saveMarker {| marker_id := 0; marker_row := 2 |} (RowNum 2) (fresh_state None)
    = Throw no_editor_fault (fresh_state None)
  ∧ getMarkerAtRow (RowNum 2) (fresh_state None)
    = Throw no_editor_fault (fresh_state None)
  ∧ displayError [missing_semicolon] (fresh_state None)
    = Throw no_editor_fault (fresh_state None).
Proof.
  split_and!; [|reflexivity..].
  intros H.
  destruct (H (fresh_state None) (RowNum 2) {| marker_id := 0; marker_row := 2 |}
              [missing_semicolon] eq_refl ltac:(done)) as (_ & Hd & _).
  discriminate Hd.
Qed.

(** C9, amended: without an active editor, reading the markers of the
    editor gives none, clearing old markers is a no-op, and [lint] returns
    before it reaches the store, so no other operation of the store runs.
    Those operations have no guard of their own: destroying, saving,
    looking up and displaying fault on [editor.id] and change nothing. *)
Theorem store_without_editor {Config : Type} (emptyConfig : Config)
    (loadConfig : string → Exn + Config)
    (jshint jsxhint : string → Config → Exn + list (option Diagnostic))
    (s : State) :
  activeEditor s = None →
  getMarkersForEditor s = Ok ∅ s ∧
  (∀ errors, Forall (λ g, g ≠ []) errors → clearOldMarkers errors s = Ok () s) ∧
  lint emptyConfig loadConfig jshint jsxhint s = Ok () s ∧
  (∀ row, destroyMarkerAtRow row s = Throw no_editor_fault s) ∧
  (∀ marker row, saveMarker marker row s = Throw no_editor_fault s) ∧
  (∀ row, getMarkerAtRow row s = Throw no_editor_fault s) ∧
  (∀ error, error ≠ [] → displayError error s = Throw no_editor_fault s).
Proof.
  intros Ha.
  assert (getMarkersForEditor s = Ok ∅ s) as Hget.
  { unfold getMarkersForEditor. run. by rewrite Ha. }
  split_and!.
  - done.
  - intros errors Hne. unfold clearOldMarkers.
    erewrite bind_Ok; [|by apply map_each_rows].
    erewrite bind_Ok; [|exact Hget].
    unfold keys. by rewrite map_to_list_empty.
  - unfold lint. run. by rewrite Ha.
  - intros row. unfold destroyMarkerAtRow. run. by rewrite Ha.
  - intros marker row. unfold saveMarker. run. by rewrite Ha.
  - intros row. unfold getMarkerAtRow. run. by rewrite Ha.
  - intros [|d rest] Hne; [done|]. unfold displayError, getMarkerAtRow. run.
    by rewrite Ha.
Qed.

Lemma store_without_editor_witness :
  getMarkersForEditor (with_editor None marked_state)
  = Ok ∅ (with_editor None marked_state) ∧
  (∀ errors, Forall (λ g, g ≠ []) errors →
     clearOldMarkers errors (with_editor None marked_state)
     = Ok () (with_editor None marked_state)) ∧
  lint () load_ok (engine_reports []) engine_fails (with_editor None marked_state)
  = Ok () (with_editor None marked_state) ∧
  (∀ row, destroyMarkerAtRow row (with_editor None marked_state)
          = Throw no_editor_fault (with_editor None marked_state)) ∧
  (∀ marker row, saveMarker marker row (with_editor None marked_state)
                 = Throw no_editor_fault (with_editor None marked_state)) ∧
  (∀ row, getMarkerAtRow row (with_editor None marked_state)
          = Throw no_editor_fault (with_editor None marked_state)) ∧
  (∀ error, error ≠ [] →
     displayError error (with_editor None marked_state)
     = Throw no_editor_fault (with_editor None marked_state)).
Proof.
  apply (store_without_editor () load_ok (engine_reports []) engine_fails
           (with_editor None marked_state)).
  reflexivity.
Defined.

(** ** Reconciliation *)

(** The rows of the groups of a pass are the rows of its diagnostics. *)
Lemma elem_of_rows_of_groups (raw : list (option Diagnostic)) (row : nat) :
  row ∈ rows_of (groups_of raw) ↔
  ∃ d, Some d ∈ raw ∧ row = row_of_line (line d).
Proof.
  unfold rows_of, groups_of. rewrite list_elem_of_omap. split.
  - intros (g & [l Hl]%elem_of_compact & Hrow).
    pose proof (aggregate_get (compact raw) l) as H. rewrite Hl in H.
    destruct H as (Hp & _ & _). destruct g as [|d rest]; [done|].
    assert (d ∈ group_of_line (compact raw) l) as Hd
      by (rewrite <- Hp; left).
    apply list_elem_of_filter in Hd as [Hline Hd].
    exists d. split.
    + unfold compact in Hd. apply list_elem_of_omap in Hd as (o & Ho & Hod).
      simpl in Hod. by subst o.
    + simpl in Hrow. by simplify_eq.
  - intros (d & Hd & ->).
    assert (d ∈ compact raw) as Hin.
    { unfold compact. apply list_elem_of_omap. by exists (Some d). }
    pose proof (aggregate_get (compact raw) (line d)) as H.
    destruct (array_get (aggregate (compact raw)) (line d)) as [g|] eqn:Hg.
    + destruct H as (Hp & Hne & _). exists g. split.
      { apply elem_of_compact. eauto. }
      destruct g as [|d' rest]; [done|].
      assert (d' ∈ group_of_line (compact raw) (line d)) as Hd'
        by (rewrite <- Hp; left).
      apply list_elem_of_filter in Hd' as [Hline _].
      simpl. unfold row_of_line. by rewrite Hline.
    + exfalso.
      assert (d ∈ group_of_line (compact raw) (line d)) as Hd'
        by (by apply list_elem_of_filter).
      rewrite H in Hd'. by apply elem_of_nil in Hd'.
Qed.



(** ** Two passes over the same diagnostics *)

(** Every pass whose engine returns destroys each marker the store held
    for the editor and creates each marker it ends up holding, whether or
    not the row was marked before. *)
Lemma lint_destroys_and_recreates {Config : Type} (emptyConfig : Config)
    (loadConfig : string → Exn + Config)
    (jshint jsxhint : string → Config → Exn + list (option Diagnostic))
    (s : State) (ed : Editor) (cfg : Config) (raw : list (option Diagnostic)) :
  activeEditor s = Some ed →
  supported ed →
  resolve_config emptyConfig loadConfig ed = inr cfg →
  selected_linter jshint jsxhint s (text ed) cfg = inr raw →
  ∃ s', lint emptyConfig loadConfig jshint jsxhint s = Ok () s' ∧
    (∀ key marker, markers_of s (editor_id ed) !! key = Some marker →
       DestroyMarker marker ∈ marker_destructions (new_events s s')) ∧
    (∀ key marker, markers_of s' (editor_id ed) !! key = Some marker →
       MarkBufferRange marker ∈ marker_creations (new_events s s')).
Proof.
  intros Ha Hsup Hcfg Hraw.
  destruct (lint_pass emptyConfig loadConfig jshint jsxhint s ed cfg raw)
    as (s' & evs & Hrun & _ & _ & _ & Htr & _ & Hdes & Hcre & _); [done..|].
  exists s'. split; [done|].
  rewrite (new_events_app _ _ _ Htr).
  unfold marker_destructions, marker_creations.
  split; intros key marker Hm; apply list_elem_of_filter; (split; [done|]);
    rewrite !elem_of_app; right; right; eauto.
Qed.

(** C2, evaluated at a failing input: the second of two passes over the
    same diagnostic destroys the marker the first pass put on row 2 and
    creates another one there.  [clearOldMarkers] looks for the key "2"
    among the numeric rows, finds no [===] match, and destroys it; then
    [displayError] finds row 2 unmarked. *)
Theorem second_pass_recreates_marker :
  lint_missing_semicolon (fresh_state (Some editor1)) = Ok () after_first_pass ∧
  lint_missing_semicolon after_first_pass = Ok () after_second_pass ∧
  markers_of after_first_pass 1 = {[show 2 := {| marker_id := 0; marker_row := 2 |}]} ∧
  contains [RowNum 2] (RowStr (show 2)) = false ∧
  marker_destructions (new_events after_first_pass after_second_pass)
    = [DestroyMarker {| marker_id := 0; marker_row := 2 |}] ∧
  marker_creations (new_events after_first_pass after_second_pass)
    = [MarkBufferRange {| marker_id := 1; marker_row := 2 |}] ∧
  markers_of after_second_pass 1 = {[show 2 := {| marker_id := 1; marker_row := 2 |}]}.
Proof. split_and!; by vm_compute. Qed.

(** * Part V: further properties of the program *)

(** ** Aggregation *)

Lemma compact_app {A} (a b : list (option A)) :
  compact (a ++ b) = compact a ++ compact b.
Proof. unfold compact. apply omap_app. Qed.

Lemma compact_replicate_None {A} n : compact (replicate n (@None A)) = [].
Proof. induction n as [|n IH]; [done|]. exact IH. Qed.

Lemma array_get_lt {A} (arr : list (option A)) i v :
  array_get arr i = Some v → i < length arr.
Proof.
  unfold array_get. intros H. apply lookup_lt_is_Some.
  destruct (arr !! i); [eauto|done].
Qed.

(** Writing a slot replaces what the slot held and keeps the rest. *)
Lemma concat_compact_array_set {A} (arr : list (option (list A))) i v :
  concat (compact (array_set arr i v)) ++ default [] (array_get arr i)
  ≡ₚ v ++ concat (compact arr).
Proof.
  unfold array_set, array_get. case_decide as Hi.
  - destruct (lookup_lt_is_Some_2 arr i Hi) as [o Ho]. rewrite Ho. simpl.
    rewrite insert_take_drop by done.
    rewrite <- (take_drop_middle arr i o Ho) at 3.
    rewrite !compact_app, !concat_app. simpl.
    destruct o as [g|]; simpl; rewrite ?app_nil_r; solve_Permutation.
  - rewrite lookup_ge_None_2 by lia. simpl. rewrite app_nil_r.
    rewrite !compact_app, compact_replicate_None. simpl.
    rewrite concat_app. simpl. rewrite app_nil_r. solve_Permutation.
Qed.

Lemma aggregate_step_concat ret el :
  concat (compact (aggregate_step ret el)) ≡ₚ concat (compact ret) ++ [el].
Proof.
  unfold aggregate_step. cbv zeta.
  destruct (array_get ret (line el)) as [g|] eqn:Hg.
  - pose proof (concat_compact_array_set ret (line el)
                  (sortBy character (g ++ [el]))) as H.
    rewrite Hg in H. simpl in H.
    apply (Permutation_app_inv_r g). etrans; [exact H|].
    rewrite sortBy_Permutation. solve_Permutation.
  - pose proof (concat_compact_array_set ret (line el) [el]) as H.
    rewrite Hg in H. simpl in H. rewrite app_nil_r in H. rewrite H.
    solve_Permutation.
Qed.

(** X1: aggregation neither loses nor repeats a diagnostic. *)
Theorem aggregate_keeps_every_diagnostic (errors : list Diagnostic) :
  concat (compact (aggregate errors)) ≡ₚ errors.
Proof.
  induction errors as [|el errors IH] using rev_ind; [done|].
  by rewrite aggregate_snoc, aggregate_step_concat, IH.
Qed.

Lemma array_get_app_l {A} (arr : list (option A)) o i :
  i < length arr → array_get (arr ++ [o]) i = array_get arr i.
Proof. intros Hi. unfold array_get. by rewrite lookup_app_l. Qed.

Lemma array_get_app_last {A} (arr : list (option A)) o :
  array_get (arr ++ [o]) (length arr) = o.
Proof.
  unfold array_get. rewrite lookup_app_r by lia.
  by replace (length arr - length arr) with 0 by lia.
Qed.

(** [_.compact] lists the slots by ascending index. *)
Lemma compact_sorted {A} (R : relation A) (arr : list (option A)) :
  (∀ i j v w, i < j → array_get arr i = Some v → array_get arr j = Some w →
     R v w) →
  StronglySorted R (compact arr).
Proof.
  induction arr as [|o arr IH] using rev_ind; intros HR; [constructor|].
  rewrite compact_app. apply StronglySorted_app_2.
  - intros v w [i Hv]%elem_of_compact Hw.
    destruct o as [w'|]; [|by apply elem_of_nil in Hw].
    apply list_elem_of_singleton in Hw as ->.
    pose proof (array_get_lt _ _ _ Hv) as Hi.
    apply (HR i (length arr)); [done| |].
    + by rewrite array_get_app_l.
    + by rewrite array_get_app_last.
  - apply IH. intros i j v w Hij Hv Hw.
    pose proof (array_get_lt _ _ _ Hv). pose proof (array_get_lt _ _ _ Hw).
    apply (HR i j); [done|by rewrite array_get_app_l..].
  - destruct o; repeat constructor.
Qed.

(** X2: the groups handed on by the aggregation come by ascending line:
    whatever stands in an earlier group is on an earlier line than
    whatever stands in a later one. *)
Theorem aggregate_groups_by_ascending_line (errors : list Diagnostic) :
  StronglySorted earlier_lines (compact (aggregate errors)).
Proof.
  apply compact_sorted. intros i j g1 g2 Hij H1 H2 d1 d2 Hd1 Hd2.
  pose proof (aggregate_get errors i) as Hi. rewrite H1 in Hi.
  pose proof (aggregate_get errors j) as Hj. rewrite H2 in Hj.
  destruct Hi as (Hp1 & _ & _). destruct Hj as (Hp2 & _ & _).
  rewrite Hp1 in Hd1. rewrite Hp2 in Hd2. unfold group_of_line in *.
  apply list_elem_of_filter in Hd1 as [-> _].
  apply list_elem_of_filter in Hd2 as [-> _]. done.
Qed.

(** ** [_.sortBy] is stable *)

Lemma sort_insert_filter_eq {A} (key : A → nat) (x : A) (l : list A) (k : nat) :
  filter (λ y, key y = k) (sort_insert key x l)
  = filter (λ y, key y = k) (x :: l).
Proof.
  induction l as [|y l IH]; simpl; [done|].
  case_decide as Hle; [done|].
  rewrite filter_cons, IH, !filter_cons.
  destruct (decide (key y = k)) as [Hy|Hy]; [|done].
  destruct (decide (key x = k)) as [Hx|Hx]; [lia|done].
Qed.

Lemma sortBy_stable {A} (key : A → nat) (l : list A) (k : nat) :
  filter (λ y, key y = k) (sortBy key l) = filter (λ y, key y = k) l.
Proof.
  induction l as [|x l IH]; simpl; [done|].
  by rewrite sort_insert_filter_eq, !filter_cons, IH.
Qed.

(** X3: among the diagnostics of one line, those at the same character
    stay in the order in which the engine reported them. *)
Theorem aggregate_keeps_report_order (errors : list Diagnostic) (l c : nat)
    (g : list Diagnostic) :
  array_get (aggregate errors) l = Some g →
  filter (λ d, character d = c) g
  = filter (λ d, character d = c) (filter (λ d, line d = l) errors).
Proof.
  revert g. induction errors as [|el errors IH] using rev_ind; intros g.
  { change (aggregate []) with (@nil (option (list Diagnostic))).
    by rewrite array_get_nil. }
  rewrite aggregate_snoc. unfold aggregate_step. cbv zeta.
  rewrite filter_app, filter_cons, filter_nil.
  destruct (decide (l = line el)) as [->|Hne].
  - rewrite decide_True by done.
    destruct (array_get (aggregate errors) (line el)) as [g0|] eqn:Hg0;
      rewrite array_get_set_eq; intros [= <-].
    + rewrite sortBy_stable, !filter_app. by rewrite (IH g0).
    + pose proof (aggregate_get errors (line el)) as H. rewrite Hg0 in H.
      unfold group_of_line in H. by rewrite H.
  - rewrite decide_False by done. rewrite app_nil_r.
    replace (array_get _ l) with (array_get (aggregate errors) l); [apply IH|].
    by destruct (array_get (aggregate errors) (line el));
      rewrite array_get_set_ne.
Qed.

(** ** What the operations leave alone *)

Section Preserves.
Context (R : State → State → Prop).
Hypothesis R_refl : ∀ s, R s s.
Hypothesis R_trans : ∀ s1 s2 s3, R s1 s2 → R s2 s3 → R s1 s3.

Lemma preserves_ret {A} (a : A) : preserves R (mret a).
Proof. intros s. apply R_refl. Qed.

Lemma preserves_bind {A B} (c : M A) (f : A → M B) :
  preserves R c → (∀ a, preserves R (f a)) → preserves R (c ≫= f).
Proof.
  intros Hc Hf s. unfold mbind, M_bind. specialize (Hc s).
  destruct (c s) as [a s1|e s1]; simpl in *; [|done].
  eapply R_trans; [exact Hc|apply Hf].
Qed.

Lemma preserves_gets {A} (f : State → A) : preserves R (gets f).
Proof. intros s. apply R_refl. Qed.

Lemma preserves_throw {A} (e : Exn) : preserves R (@throw A e).
Proof. intros s. apply R_refl. Qed.

Lemma preserves_deref {A} what (o : option A) : preserves R (deref what o).
Proof. destruct o; [apply preserves_ret|apply preserves_throw]. Qed.

Lemma preserves_modify (f : State → State) :
  (∀ s, R s (f s)) → preserves R (modify f).
Proof. intros Hf s. apply Hf. Qed.

Lemma preserves_each {A} (l : list A) (callback : A → M unit) :
  (∀ x, preserves R (callback x)) → preserves R (each l callback).
Proof.
  intros Hf. induction l as [|x l IH]; simpl; [apply preserves_ret|].
  apply preserves_bind; [apply Hf|]. intros _. exact IH.
Qed.

Lemma preserves_map_each {A B} (l : list A) (callback : A → M B) :
  (∀ x, preserves R (callback x)) → preserves R (map_each l callback).
Proof.
  intros Hf. induction l as [|x l IH]; simpl; [apply preserves_ret|].
  apply preserves_bind; [apply Hf|]. intros y.
  apply preserves_bind; [exact IH|]. intros ys. apply preserves_ret.
Qed.
End Preserves.

Lemma store_step_refl s : store_step s s.
Proof. by split. Qed.

Lemma store_step_trans s1 s2 s3 :
  store_step s1 s2 → store_step s2 s3 → store_step s1 s3.
Proof.
  intros [E1 S1 R1 B1 O1 N1 T1] [E2 S2 R2 B2 O2 N2 T2].
  split; try congruence; [|lia|by etrans].
  intros id Hid. rewrite O2, O1; [done..|].
  unfold other_editor in *. by rewrite E1.
Qed.

Lemma untouched_refl s : untouched s s.
Proof. by split. Qed.

Lemma untouched_trans s1 s2 s3 :
  untouched s1 s2 → untouched s2 s3 → untouched s1 s3.
Proof.
  intros [E1 S1 M1 R1 B1 N1 T1] [E2 S2 M2 R2 B2 N2 T2].
  assert (∀ id, other_editor s1 id → other_editor s2 id) as Hother.
  { intros id. unfold other_editor. by rewrite E1. }
  split; try congruence; [| |lia|by etrans].
  - intros id Hid. rewrite M2, M1; auto.
  - intros id Hid. rewrite R2, R1; auto.
Qed.

Lemma store_step_untouched s s' : store_step s s' → untouched s s'.
Proof.
  intros [E S R B O N T]. split; try done.
  - intros id _. by rewrite R.
  - by rewrite B.
Qed.

Lemma store_step_host s f n evs :
  nextMarkerId s ≤ n → store_step s (with_host f n evs s).
Proof. intros Hn. split; simpl; try done. by apply prefix_app_r. Qed.

Create HintDb pres discriminated.

Ltac store_pres :=
  repeat first
    [ solve [auto 1 with pres nocore]
    | apply (preserves_ret store_step store_step_refl)
    | apply (preserves_gets store_step store_step_refl)
    | apply (preserves_throw store_step store_step_refl)
    | apply (preserves_deref store_step store_step_refl)
    | apply (preserves_bind store_step store_step_trans); [|intros ?]
    | apply (preserves_each store_step store_step_refl store_step_trans);
        intros ?
    | apply (preserves_map_each store_step store_step_refl store_step_trans);
        intros ? ].

Lemma other_editor_ne s ed id :
  activeEditor s = Some ed → other_editor s id → editor_id ed ≠ id.
Proof. unfold other_editor. intros -> Hne Heq. apply Hne. simpl. by rewrite Heq. Qed.

Lemma store_step_emit evs : preserves store_step (emit evs).
Proof. intros s. by apply store_step_host. Qed.
#[local] Hint Resolve store_step_emit : pres.

Lemma store_step_markBufferRange row : preserves store_step (markBufferRange row).
Proof. intros s. simpl. apply store_step_host. lia. Qed.
#[local] Hint Resolve store_step_markBufferRange : pres.

Lemma store_step_destroy m : preserves store_step (destroy m).
Proof. intros s. by apply store_step_host. Qed.
#[local] Hint Resolve store_step_destroy : pres.

Lemma store_step_getMarkersForEditor : preserves store_step getMarkersForEditor.
Proof.
  unfold getMarkersForEditor, getActiveEditor. store_pres.
  repeat case_match; store_pres.
Qed.
#[local] Hint Resolve store_step_getMarkersForEditor : pres.

Lemma store_step_getMarkerAtRow row : preserves store_step (getMarkerAtRow row).
Proof.
  unfold getMarkerAtRow, getActiveEditor, editor_dot_id. store_pres.
  repeat case_match; store_pres.
Qed.
#[local] Hint Resolve store_step_getMarkerAtRow : pres.

Lemma store_step_destroyMarkerAtRow row :
  preserves store_step (destroyMarkerAtRow row).
Proof.
  intros s. unfold destroyMarkerAtRow, destroy. run.
  destruct (activeEditor s) as [ed|] eqn:Ha; simpl; [|apply store_step_refl].
  destruct (markersByEditorId s !! editor_id ed) as [ms|] eqn:Hms; simpl;
    [|apply store_step_refl].
  destruct (ms !! to_property_key row) as [marker|]; simpl;
    [|apply store_step_refl].
  split; simpl; try done; [|by apply prefix_app_r].
  intros id Hid. rewrite Hms. apply lookup_insert_ne.
  by eapply other_editor_ne.
Qed.
#[local] Hint Resolve store_step_destroyMarkerAtRow : pres.

Lemma store_step_saveMarker marker row :
  preserves store_step (saveMarker marker row).
Proof.
  intros s. unfold saveMarker. run.
  destruct (activeEditor s) as [ed|] eqn:Ha; simpl; [|apply store_step_refl].
  split; simpl; try done.
  intros id Hid. pose proof (other_editor_ne s ed id Ha Hid) as Hne.
  destruct (markersByEditorId s !! editor_id ed) as [ms|] eqn:Hms; simpl.
  - rewrite Hms. by rewrite lookup_insert_ne.
  - rewrite lookup_insert_eq. by rewrite !lookup_insert_ne.
Qed.
#[local] Hint Resolve store_step_saveMarker : pres.

Lemma store_step_clearOldMarkers errors :
  preserves store_step (clearOldMarkers errors).
Proof.
  unfold clearOldMarkers, getRowForErrorM. store_pres.
  case_match; store_pres.
Qed.
#[local] Hint Resolve store_step_clearOldMarkers : pres.

Lemma store_step_addReasons marker error :
  preserves store_step (addReasons marker error).
Proof. unfold addReasons, getRowForErrorM. store_pres. Qed.
#[local] Hint Resolve store_step_addReasons : pres.

Lemma store_step_displayError error : preserves store_step (displayError error).
Proof.
  unfold displayError, getRowForErrorM, getActiveEditor, decorateMarker.
  store_pres. case_match; store_pres.
Qed.
#[local] Hint Resolve store_step_displayError : pres.

(** ** The status bar *)

Lemma without_summary_idemp bar :
  without_summary (without_summary bar) = without_summary bar.
Proof.
  unfold without_summary. induction bar as [|e bar IH]; [done|].
  rewrite filter_cons. case_decide; [|done].
  rewrite filter_cons, decide_True by done. by rewrite IH.
Qed.

Lemma without_summary_app bar d :
  without_summary (bar ++ [summary_element d]) = without_summary bar.
Proof.
  unfold without_summary. rewrite filter_app, filter_cons.
  rewrite decide_False by (intros H; by apply H). by rewrite app_nil_r.
Qed.

Lemma summaries_without_summary bar : summaries (without_summary bar) = [].
Proof.
  unfold summaries, without_summary. induction bar as [|e bar IH]; [done|].
  rewrite filter_cons. case_decide as He; [|done].
  rewrite filter_cons. by rewrite decide_False.
Qed.

(** The state [updateStatusbar] ends in, returned or thrown. *)
Lemma updateStatusbar_state s :
  state_of (updateStatusbar s) =
  with_statusBar (λ bar, without_summary bar ++ summary_of s) s.
Proof.
  unfold updateStatusbar, summary_of, statusBar_remove, statusBar_appendLeft.
  run. destruct (statusBar s) as [bar|] eqn:Hb; simpl.
  2: { apply state_eq; simpl; try done. by rewrite Hb. }
  destruct (activeEditor s) as [ed|]; simpl.
  2: { apply state_eq; simpl; try done. rewrite Hb. simpl.
       by rewrite app_nil_r. }
  destruct (errorsByEditorId s !! editor_id ed) as [ret|]; simpl.
  2: { apply state_eq; simpl; try done. rewrite Hb. simpl.
       by rewrite app_nil_r. }
  destruct (array_get ret (cursor_row ed + 1)) as [[|d g]|]; simpl.
  - apply state_eq; simpl; try done. rewrite Hb. simpl. by rewrite app_nil_r.
  - apply state_eq; simpl; try done. by rewrite Hb.
  - destruct (first (compact ret)) as [[|d g]|]; simpl.
    + apply state_eq; simpl; try done. rewrite Hb. simpl. by rewrite app_nil_r.
    + apply state_eq; simpl; try done. by rewrite Hb.
    + apply state_eq; simpl; try done. rewrite Hb. simpl. by rewrite app_nil_r.
Qed.

Lemma summary_of_cases s :
  summary_of s = [] ∨ ∃ d, summary_of s = [summary_element d].
Proof.
  unfold summary_of. repeat case_match; eauto.
Qed.

(** X4: [updateStatusbar], whether it returns or faults, changes nothing
    but the status bar; there it keeps every other element, in order,
    leaves at most one summary, and running it again changes nothing
    more. *)
Theorem updateStatusbar_keeps_one_summary (s : State) :
  markersByEditorId (state_of (updateStatusbar s)) = markersByEditorId s ∧
  errorsByEditorId (state_of (updateStatusbar s)) = errorsByEditorId s ∧
  liveMarkers (state_of (updateStatusbar s)) = liveMarkers s ∧
  trace (state_of (updateStatusbar s)) = trace s ∧
  (statusBar s = None → statusBar (state_of (updateStatusbar s)) = None) ∧
  (∀ bar, statusBar s = Some bar →
     ∃ bar', statusBar (state_of (updateStatusbar s)) = Some bar' ∧
       without_summary bar' = without_summary bar ∧
       length (summaries bar') ≤ 1) ∧
  statusBar (state_of (updateStatusbar (state_of (updateStatusbar s))))
  = statusBar (state_of (updateStatusbar s)).
Proof.
  rewrite !updateStatusbar_state. simpl. split_and!; try done.
  - by intros ->.
  - intros bar ->. eexists. split; [done|].
    destruct (summary_of_cases s) as [->|[d ->]].
    + rewrite app_nil_r, without_summary_idemp. split; [done|].
      rewrite summaries_without_summary. simpl. lia.
    + rewrite without_summary_app, without_summary_idemp. split; [done|].
      unfold summaries. rewrite filter_app. fold (summaries (without_summary bar)).
      rewrite summaries_without_summary. simpl. lia.
  - assert (summary_of (with_statusBar
              (λ bar, without_summary bar ++ summary_of s) s) = summary_of s)
      as -> by done.
    destruct (statusBar s) as [bar|]; [|done]. simpl. f_equal. f_equal.
    destruct (summary_of_cases s) as [->|[d ->]].
    + by rewrite app_nil_r, without_summary_idemp.
    + by rewrite without_summary_app, without_summary_idemp.
Qed.

Lemma untouched_updateStatusbar : preserves untouched updateStatusbar.
Proof.
  intros s. rewrite updateStatusbar_state. split; simpl; try done.
  destruct (statusBar s) as [bar|]; [|done]. simpl. f_equal.
  destruct (summary_of_cases s) as [->|[d ->]].
  - by rewrite app_nil_r, without_summary_idemp.
  - by rewrite without_summary_app, without_summary_idemp.
Qed.

(** ** What a pass leaves alone *)

Lemma preserves_weaken {A} (R R' : State → State → Prop) (c : M A) :
  (∀ s s', R s s' → R' s s') → preserves R c → preserves R' c.
Proof. intros HR Hc s. apply HR, Hc. Qed.

Lemma untouched_displayErrors errors : preserves untouched (displayErrors errors).
Proof.
  unfold displayErrors.
  apply (preserves_bind untouched untouched_trans).
  { eapply preserves_weaken; [apply store_step_untouched|].
    apply store_step_clearOldMarkers. }
  intros _. apply (preserves_bind untouched untouched_trans).
  { apply untouched_updateStatusbar. }
  intros _. eapply preserves_weaken; [apply store_step_untouched|].
  apply (preserves_each store_step store_step_refl store_step_trans).
  intros error. apply store_step_displayError.
Qed.

Lemma untouched_with_errors s ed f :
  activeEditor s = Some ed →
  (∀ m id, id ≠ editor_id ed → f m !! id = m !! id) →
  untouched s (with_errors f s).
Proof.
  intros Ha Hf. split; simpl; try done.
  intros id Hid. apply Hf. intros ->. apply Hid. by rewrite Ha.
Qed.

Section LintFrame.
Context {Config : Type}.
Variable emptyConfig : Config.
Variable loadConfig : string → Exn + Config.
Variable jshint jsxhint : string → Config → Exn + list (option Diagnostic).

Lemma untouched_lint (s : State) :
  untouched s (state_of (lint emptyConfig loadConfig jshint jsxhint s)).
Proof.
  destruct (activeEditor s) as [ed|] eqn:Ha.
  2: { replace (lint emptyConfig loadConfig jshint jsxhint s) with (Ok () s);
         [apply untouched_refl|].
       unfold lint. run. by rewrite Ha. }
  destruct (decide (grammar_name ed ∈ ["JavaScript"; "JavaScript (JSX)"]))
    as [Hsup|Hsup].
  2: { replace (lint emptyConfig loadConfig jshint jsxhint s) with (Ok () s);
         [apply untouched_refl|].
       unfold lint. run. rewrite Ha. by rewrite bool_decide_eq_false_2. }
  rewrite (lint_prefix emptyConfig loadConfig jshint jsxhint s ed)
    by (by rewrite ?supported_decide).
  assert (∀ next evs, nextMarkerId s ≤ next →
            untouched s (with_host id next evs s)) as Hhost.
  { intros next evs Hn. split; simpl; try done. by apply prefix_app_r. }
  destruct (resolve_config emptyConfig loadConfig ed) as [e|cfg]; simpl.
  { by apply Hhost. }
  destruct (selected_linter jshint jsxhint s (text ed) cfg) as [e|raw]; simpl.
  { by apply Hhost. }
  eapply untouched_trans; [by apply (Hhost (nextMarkerId s))|].
  fold (after_engine ed s).
  erewrite bind_Ok; [|by unfold removeErrorsForEditorId; run].
  eapply untouched_trans.
  { apply (untouched_with_errors _ ed); [done|].
    intros m id' Hne. by apply lookup_delete_ne. }
  destruct (decide (0 < length (compact raw))).
  - erewrite bind_Ok; [|by run].
    eapply untouched_trans; [|apply untouched_displayErrors].
    apply (untouched_with_errors _ ed); [done|].
    intros m id' Hne. by apply lookup_insert_ne.
  - erewrite bind_Ok; [|by run]. apply untouched_displayErrors.
Qed.

(** X5: a pass, however it ends, leaves the active editor and the
    settings as they are, never changes the markers or the error state
    of an editor other than the active one, and keeps every element of
    the status bar but its own summary; what it adds to the calls made so
    far comes after them. *)
Theorem lint_leaves_other_editors_alone (s : State) :
  untouched s (state_of (lint emptyConfig loadConfig jshint jsxhint s)).
Proof. apply untouched_lint. Qed.
End LintFrame.

(** ** Saving, finding and destroying a marker *)

(** X6: what [saveMarker] stores under a row is what [getMarkerAtRow]
    finds under every row with the same property name, be the row given
    as a number or as the name of one; the other rows keep what they
    held, and nothing but the store of the active editor changes. *)
Theorem saveMarker_then_getMarkerAtRow (s : State) (ed : Editor)
    (marker : Marker) (row : RowVal) :
  activeEditor s = Some ed →
  names_row row →
  ∃ s', saveMarker marker row s = Ok () s' ∧
    store_step s s' ∧
    liveMarkers s' = liveMarkers s ∧
    trace s' = trace s ∧
    ∀ row', names_row row' →
      getMarkerAtRow row' s' =
      Ok (if decide (to_property_key row' = to_property_key row)
          then Some marker
          else markers_of s (editor_id ed) !! to_property_key row') s'.
Proof.
  intros Ha _. rewrite (saveMarker_active ed) by done. eexists.
  split; [done|]. split_and!; [|done|done|].
  - pose proof (store_step_saveMarker marker row s) as H.
    by rewrite (saveMarker_active ed) in H.
  - intros row' _. rewrite (getMarkerAtRow_active ed) by done. f_equal.
    unfold markers_of at 1. simpl. rewrite lookup_insert_eq. simpl.
    case_decide as Hk.
    + rewrite Hk. apply lookup_insert_eq.
    + by apply lookup_insert_ne.
Qed.

(** X7: [destroyMarkerAtRow] on a marked row destroys the marker in the
    host, that marker and no other, and forgets it, so that the row is
    found unmarked and the other rows as before; on an unmarked row it
    does nothing at all. *)
Theorem destroyMarkerAtRow_unmarks (s : State) (ed : Editor) (row : RowVal) :
  activeEditor s = Some ed →
  names_row row →
  ∃ s', destroyMarkerAtRow row s = Ok () s' ∧
    getMarkerAtRow row s' = Ok None s' ∧
    (∀ row', names_row row' →
       to_property_key row' ≠ to_property_key row →
       getMarkerAtRow row' s' =
       Ok (markers_of s (editor_id ed) !! to_property_key row') s') ∧
    (∀ marker,
       markers_of s (editor_id ed) !! to_property_key row = Some marker →
       marker_destructions (new_events s s') = [DestroyMarker marker] ∧
       marker_creations (new_events s s') = [] ∧
       marker_id marker ∉ liveMarkers s') ∧
    (markers_of s (editor_id ed) !! to_property_key row = None → s' = s).
Proof.
  intros Ha _.
  destruct (destroyMarkerAtRow_active ed s row Ha)
    as (s' & Hrun & Hui & _ & Hm & _ & Hcre).
  exists s'. split; [done|].
  assert (activeEditor s' = Some ed) as Ha'
    by (by rewrite (ui_editor _ _ Hui)).
  split_and!.
  - rewrite (getMarkerAtRow_active ed) by done. by rewrite Hm, lookup_delete_eq.
  - intros row' _ Hne. rewrite (getMarkerAtRow_active ed) by done.
    by rewrite Hm, lookup_delete_ne.
  - intros marker Hlook. split_and!; [| done |]; revert Hrun;
      unfold destroyMarkerAtRow, destroy; run; rewrite Ha; simpl;
      unfold markers_of in Hlook;
      (destruct (markersByEditorId s !! editor_id ed) as [ms|]; simpl in *;
       [|done]);
      rewrite Hlook; intros [= <-].
    + by erewrite new_events_app by (by simpl).
    + simpl. set_solver.
  - intros Hnone. revert Hrun.
    unfold destroyMarkerAtRow, destroy. run. rewrite Ha. simpl.
    unfold markers_of in Hnone.
    destruct (markersByEditorId s !! editor_id ed) as [ms|]; simpl in *.
    + rewrite Hnone. by intros [= <-].
    + by intros [= <-].
Qed.

(** ** Displaying an error *)

(** X8: [displayError] marks a row once.  After it has run for a group,
    displaying any group of the same row changes nothing: no second
    marker, and no new tooltip either. *)
Theorem displayError_marks_once (s : State) (ed : Editor)
    (error : list Diagnostic) (row : nat) :
  activeEditor s = Some ed →
  getRowForError error = Some row →
  ∃ s', displayError error s = Ok () s' ∧
    ∀ error', getRowForError error' = Some row →
      displayError error' s' = Ok () s'.
Proof.
  intros Ha Hrow.
  destruct (displayError_active ed s error row Ha Hrow)
    as (s' & Hrun & Hui & Hdom & _).
  exists s'. split; [done|]. intros error' Hrow'.
  assert (activeEditor s' = Some ed) as Ha'
    by (by rewrite (ui_editor _ _ Hui)).
  destruct (displayError_active ed s' error' row Ha' Hrow')
    as (s'' & Hrun' & _ & _ & _ & _ & Hsame & _).
  rewrite Hrun'. f_equal. apply Hsame. apply elem_of_dom.
  rewrite Hdom. set_solver.
Qed.

(** X9: on a row without a marker, [displayError] asks the host for a
    marker on that row, decorates its line and its gutter, replaces the
    tooltip of the row by the reasons of the group, one per diagnostic
    and in the order of the group, and listens for the end of the
    marker; the marker is then the one the store holds for the row. *)
Theorem displayError_on_unmarked_row (s : State) (ed : Editor)
    (error : list Diagnostic) (row : nat) :
  activeEditor s = Some ed →
  getRowForError error = Some row →
  markers_of s (editor_id ed) !! show row = None →
  ∃ s', displayError error s = Ok () s' ∧
    let marker := {| marker_id := nextMarkerId s; marker_row := row |} in
    new_events s s' =
      [MarkBufferRange marker;
       DecorateMarker marker "line" "jshint-line";
       DecorateMarker marker "gutter" "jshint-line-number";
       DestroyTooltip row;
       SetTooltip row
         {| el_tag := "div"; el_id := ""; el_class := "jshint-errors";
            el_inner :=
              join "<br />"
                ((λ el, show (character el) +:+ ": " +:+ reason el) <$> error) |};
       OnChangedDestroyed marker] ∧
    markers_of s' (editor_id ed) = <[show row := marker]> (markers_of s (editor_id ed)) ∧
    liveMarkers s' = {[nextMarkerId s]} ∪ liveMarkers s.
Proof.
  intros Ha Hrow Hnone. unfold displayError.
  erewrite bind_Ok; [|by run; rewrite Hrow].
  erewrite bind_Ok; [|by apply (getMarkerAtRow_active ed)].
  simpl. rewrite Hnone.
  erewrite bind_Ok; [|by run].
  erewrite bind_Ok; [|by run; rewrite Ha].
  erewrite bind_Ok; [|by unfold markBufferRange].
  erewrite bind_Ok; [|by unfold decorateMarker; run].
  erewrite bind_Ok; [|by unfold decorateMarker; run].
  erewrite bind_Ok; [|by apply (saveMarker_active ed)].
  unfold addReasons. erewrite bind_Ok; [|by run; rewrite Hrow].
  run. eexists. split; [done|]. split_and!.
  - apply new_events_app. simpl. by rewrite <- !app_assoc.
  - unfold markers_of at 1. simpl. by rewrite lookup_insert_eq.
  - done.
Qed.

(** ** Closing an editor *)

(** X10: the handler of [editor:will-be-removed] forgets the markers and
    the errors of the editor of the view and nothing else; it calls the
    host for nothing, so the markers it forgets are not destroyed by it.
    Without a view, or for a view without an editor, it does nothing. *)
Theorem onEditorWillBeRemoved_forgets (s : State) (editorView : option EditorView) :
  ∃ s', onEditorWillBeRemoved editorView s = Ok () s' ∧
    trace s' = trace s ∧
    liveMarkers s' = liveMarkers s ∧
    statusBar s' = statusBar s ∧
    activeEditor s' = activeEditor s ∧
    match editorView ≫= view_editor with
    | Some editor =>
        markersByEditorId s' = delete (editor_id editor) (markersByEditorId s) ∧
        errorsByEditorId s' = delete (editor_id editor) (errorsByEditorId s) ∧
        markers_of s' (editor_id editor) = ∅ ∧
        (activeEditor s = Some editor →
         getMarkersForEditor s' = Ok ∅ s' ∧
         statusBar (state_of (updateStatusbar s')) = without_summary <$> statusBar s)
    | None => s' = s
    end.
Proof.
  unfold onEditorWillBeRemoved.
  destruct editorView as [[[editor|]]|]; simpl;
    [|exists s; by split_and!..].
  unfold removeErrorsForEditorId, removeMarkersForEditorId. run.
  eexists. split; [done|]. split_and!; try done.
  - unfold markers_of. simpl. by rewrite lookup_delete_eq.
  - intros Ha. split.
    + unfold getMarkersForEditor. run. rewrite Ha. by rewrite lookup_delete_eq.
    + rewrite updateStatusbar_state. simpl. unfold summary_of. simpl.
      rewrite Ha, lookup_delete_eq. destruct (statusBar s) as [bar|]; [|done].
      simpl. by rewrite app_nil_r.
Qed.

(** ** Faults of [displayErrors] *)

Lemma bind_Throw {A B} (c : M A) (f : A → M B) s e s' :
  c s = Throw e s' → (c ≫= f) s = Throw e s'.
Proof. unfold mbind, M_bind. by intros ->. Qed.

(** X11: a group without a diagnostic makes [displayErrors] fault while
    it computes the rows, before a marker or the status bar is touched. *)
Theorem displayErrors_empty_group_faults (s : State)
    (errors : list (list Diagnostic)) :
  [] ∈ errors →
  displayErrors errors s
  = Throw (TypeError "Cannot read property 'line' of undefined") s.
Proof.
  intros Hin. unfold displayErrors, clearOldMarkers.
  assert (map_each errors (λ error,
            row ← getRowForErrorM error; mret (RowNum row)) s
          = Throw (TypeError "Cannot read property 'line' of undefined") s)
    as Hmap.
  { induction errors as [|g errors IH]; [by apply elem_of_nil in Hin|].
    destruct g as [|d g]; [done|].
    apply elem_of_cons in Hin as [Hin|Hin]; [done|].
    simpl. erewrite bind_Ok; [|by run].
    apply bind_Throw. by apply IH. }
  apply bind_Throw. apply bind_Throw. exact Hmap.
Qed.

(** ** The state a pass ends in *)

(** The summary depends on the editor and on the error state only. *)
Lemma summary_of_ext s s' :
  activeEditor s' = activeEditor s →
  errorsByEditorId s' = errorsByEditorId s →
  summary_of s' = summary_of s.
Proof. unfold summary_of. by intros -> ->. Qed.

Lemma displayErrors_bar errors s s' :
  displayErrors errors s = Ok () s' →
  statusBar s' = (λ bar, without_summary bar ++ summary_of s) <$> statusBar s ∧
  errorsByEditorId s' = errorsByEditorId s ∧
  activeEditor s' = activeEditor s ∧
  settings s' = settings s.
Proof.
  unfold displayErrors. intros Hrun.
  pose proof (store_step_clearOldMarkers errors s) as H1.
  destruct (clearOldMarkers errors s) as [[] s1|e s1] eqn:Hc.
  2: { by rewrite (bind_Throw _ _ _ _ _ Hc) in Hrun. }
  rewrite (bind_Ok _ _ _ _ _ Hc) in Hrun. simpl in H1.
  pose proof (updateStatusbar_state s1) as H2.
  destruct (updateStatusbar s1) as [[] s2|e s2] eqn:Hu.
  2: { by rewrite (bind_Throw _ _ _ _ _ Hu) in Hrun. }
  rewrite (bind_Ok _ _ _ _ _ Hu) in Hrun. simpl in H2.
  pose proof (preserves_each store_step store_step_refl store_step_trans
                errors displayError store_step_displayError s2) as H3.
  rewrite Hrun in H3. simpl in H3.
  destruct H1 as [E1 S1 R1 B1 _ _ _]. destruct H3 as [E3 S3 R3 B3 _ _ _].
  rewrite B3, E3, S3, R3, H2. simpl.
  rewrite (summary_of_ext s s1), B1 by done. by rewrite E1, S1, R1.
Qed.

Section LintState.
Context {Config : Type}.
Variable emptyConfig : Config.
Variable loadConfig : string → Exn + Config.
Variable jshint jsxhint : string → Config → Exn + list (option Diagnostic).

(** The error state and the status bar a returning pass ends with. *)
Lemma lint_pass_state s ed cfg raw :
  activeEditor s = Some ed →
  supported ed →
  resolve_config emptyConfig loadConfig ed = inr cfg →
  selected_linter jshint jsxhint s (text ed) cfg = inr raw →
  ∃ s', lint emptyConfig loadConfig jshint jsxhint s = Ok () s' ∧
    activeEditor s' = Some ed ∧
    settings s' = settings s ∧
    errorsByEditorId s' =
      (if decide (compact raw = [])
       then delete (editor_id ed) (errorsByEditorId s)
       else <[editor_id ed := aggregate (compact raw)]> (errorsByEditorId s)) ∧
    statusBar s' = (λ bar, without_summary bar ++ summary_of s') <$> statusBar s ∧
    dom (markers_of s' (editor_id ed)) =
      list_to_set (show <$> rows_of (groups_of raw)).
Proof.
  intros Ha Hsup Hcfg Hraw.
  destruct (lint_pass emptyConfig loadConfig jshint jsxhint s ed cfg raw)
    as (s' & evs & Hrun & Hdom & _); [done..|].
  exists s'. split; [done|].
  rewrite (lint_prefix emptyConfig loadConfig jshint jsxhint s ed) in Hrun
    by done.
  rewrite Hcfg, Hraw in Hrun.
  erewrite bind_Ok in Hrun; [|by unfold removeErrorsForEditorId; run].
  destruct (decide (0 < length (compact raw))) as [Hlen|Hlen].
  - erewrite bind_Ok in Hrun; [|by run].
    apply displayErrors_bar in Hrun as (Hbar & Herr & Hed & Hset).
    rewrite decide_False
      by (intros E; rewrite E in Hlen; simpl in Hlen; lia).
    simpl in *. rewrite Hed, Hset, Herr, Hbar. split_and!; try done.
    + by rewrite insert_delete_eq.
    + destruct (statusBar s) as [bar|]; [|done]. simpl. do 2 f_equal.
      symmetry. by apply summary_of_ext.
  - erewrite bind_Ok in Hrun; [|by run].
    apply displayErrors_bar in Hrun as (Hbar & Herr & Hed & Hset).
    rewrite decide_True
      by (destruct (compact raw); [done|simpl in Hlen; lia]).
    simpl in *. rewrite Hed, Hset, Herr, Hbar. split_and!; try done.
    destruct (statusBar s) as [bar|]; [|done]. simpl. do 2 f_equal.
    symmetry. by apply summary_of_ext.
Qed.
End LintState.

Lemma first_compact_inv {A} (arr : list (option A)) v :
  first (compact arr) = Some v →
  ∃ l, array_get arr l = Some v ∧ ∀ l', l' < l → array_get arr l' = None.
Proof.
  induction arr as [|o arr IH]; [done|].
  destruct o as [w|]; simpl.
  - intros [= ->]. exists 0. split; [done|]. intros l' Hl'. lia.
  - intros Hf. destruct (IH Hf) as (l & Hl & Hleast).
    exists (S l). split; [done|].
    intros [|l'] Hl'; [done|]. apply (Hleast l'). lia.
Qed.

Lemma elem_of_compact_Some {A} (raw : list (option A)) (d : A) :
  d ∈ compact raw ↔ Some d ∈ raw.
Proof.
  unfold compact. rewrite list_elem_of_omap. split.
  - intros (o & Ho & Hd). simpl in Hd. by subst o.
  - intros Hd. by exists (Some d).
Qed.

(** The head of a group of the aggregation, told from the diagnostics. *)
Lemma aggregate_group_head errors l d rest :
  array_get (aggregate errors) l = Some (d :: rest) →
  d ∈ errors ∧ line d = l ∧
  ∀ d', d' ∈ errors → line d' = l → character d ≤ character d'.
Proof.
  intros Hg. pose proof (aggregate_get errors l) as H. rewrite Hg in H.
  destruct H as (Hp & _ & Hs).
  assert (d ∈ group_of_line errors l) as Hd by (rewrite <- Hp; left).
  apply list_elem_of_filter in Hd as [Hl Hd]. split_and!; [done..|].
  intros d' Hd' Hl'.
  assert (d' ∈ d :: rest) as Hin
    by (rewrite Hp; by apply list_elem_of_filter).
  apply StronglySorted_cons in Hs as [Hall _].
  apply elem_of_cons in Hin as [->|Hin]; [done|].
  rewrite Forall_forall in Hall. by apply Hall.
Qed.

Lemma no_marker_creations (evs : list Event) :
  (∀ m, MarkBufferRange m ∉ evs) →
  filter (λ e, is_marker_creation e = true) evs = [].
Proof.
  induction evs as [|ev evs IH]; intros Hno; [done|].
  rewrite filter_cons. destruct ev; simpl;
    try (apply IH; intros m' Hin; apply (Hno m'); by right).
  exfalso. apply (Hno m). left.
Qed.

Section LintResults.
Context {Config : Type}.
Variable emptyConfig : Config.
Variable loadConfig : string → Exn + Config.
Variable jshint jsxhint : string → Config → Exn + list (option Diagnostic).

(** X12: the [null] entries of an engine's result count for nothing: two
    results with the same diagnostics in the same order give the same
    pass. *)
Theorem lint_ignores_null_entries
    (jshint' jsxhint' : string → Config → Exn + list (option Diagnostic))
    (s : State) (ed : Editor) (cfg : Config)
    (raw raw' : list (option Diagnostic)) :
  activeEditor s = Some ed →
  supported ed →
  resolve_config emptyConfig loadConfig ed = inr cfg →
  selected_linter jshint jsxhint s (text ed) cfg = inr raw →
  selected_linter jshint' jsxhint' s (text ed) cfg = inr raw' →
  compact raw = compact raw' →
  lint emptyConfig loadConfig jshint jsxhint s
  = lint emptyConfig loadConfig jshint' jsxhint' s.
Proof.
  intros Ha Hsup Hcfg Hraw Hraw' Hc.
  rewrite !(lint_prefix _ _ _ _ s ed) by done.
  by rewrite Hcfg, Hraw, Hraw', Hc.
Qed.

(** X13: an editor without a file (no URI, or an empty one) is linted
    with the empty configuration: the resolver is not called and has no
    part in the pass, and the engines are only run on the empty
    configuration. *)
Theorem lint_untitled_editor (s : State) (ed : Editor) :
  activeEditor s = Some ed →
  supported ed →
  uri ed = None ∨ uri ed = Some "" →
  (∀ loadConfig',
     lint emptyConfig loadConfig' jshint jsxhint s
     = lint emptyConfig loadConfig jshint jsxhint s) ∧
  lint emptyConfig loadConfig
    (λ source _, jshint source emptyConfig)
    (λ source _, jsxhint source emptyConfig) s
  = lint emptyConfig loadConfig jshint jsxhint s ∧
  ∀ file, LoadConfig file ∉
    new_events s (state_of (lint emptyConfig loadConfig jshint jsxhint s)).
Proof.
  intros Ha Hsup Huri.
  assert (truthy_string (uri ed) = None) as Ht
    by (by destruct Huri as [->| ->]).
  assert (∀ lc, resolve_config emptyConfig lc ed = inr emptyConfig) as Hres.
  { intros lc. unfold resolve_config. by rewrite Ht. }
  split_and!.
  - intros lc. rewrite !(lint_prefix _ _ _ _ s ed) by done.
    by rewrite !Hres.
  - rewrite !(lint_prefix _ _ _ _ s ed) by done. rewrite !Hres.
    unfold selected_linter. by destruct (jsx_enabled s).
  - intros file.
    destruct (selected_linter jshint jsxhint s (text ed) emptyConfig)
      as [e|raw] eqn:Hrun.
    + rewrite (lint_prefix _ _ _ _ s ed) by done. rewrite Hres, Hrun. simpl.
      erewrite new_events_app by done. unfold config_events. rewrite Ht.
      set_solver.
    + destruct (lint_pass emptyConfig loadConfig jshint jsxhint s ed
                  emptyConfig raw)
        as (s' & evs & -> & _ & _ & _ & Htr & Hevs & _); [done..|].
      simpl. rewrite (new_events_app _ _ _ Htr). unfold config_events.
      rewrite Ht. simpl. intros [Heq|Hin]%elem_of_cons; [done|].
      rewrite Forall_forall in Hevs. by apply Hevs in Hin.
Qed.

(** X14: a pass that finds nothing clears the editor: its error state is
    gone, its store is empty, every marker the store held has been
    destroyed, none has been created, and the summary has left the
    status bar. *)
Theorem lint_without_diagnostics_clears (s : State) (ed : Editor)
    (cfg : Config) (raw : list (option Diagnostic)) :
  activeEditor s = Some ed →
  supported ed →
  resolve_config emptyConfig loadConfig ed = inr cfg →
  selected_linter jshint jsxhint s (text ed) cfg = inr raw →
  compact raw = [] →
  ∃ s', lint emptyConfig loadConfig jshint jsxhint s = Ok () s' ∧
    errorsByEditorId s' !! editor_id ed = None ∧
    markers_of s' (editor_id ed) = ∅ ∧
    (∀ key marker, markers_of s (editor_id ed) !! key = Some marker →
       DestroyMarker marker ∈ new_events s s') ∧
    marker_creations (new_events s s') = [] ∧
    statusBar s' = without_summary <$> statusBar s.
Proof.
  intros Ha Hsup Hcfg Hraw Hnil.
  destruct (lint_pass_state emptyConfig loadConfig jshint jsxhint s ed cfg raw)
    as (s' & Hrun & Ha' & _ & Herr & Hbar & Hdom); [done..|].
  destruct (lint_pass emptyConfig loadConfig jshint jsxhint s ed cfg raw)
    as (s'' & evs & Hrun' & _ & _ & _ & Htr & Hevs & Hdes & Hcre & Hsto);
    [done..|].
  assert (s'' = s') as -> by congruence.
  rewrite decide_True in Herr by done.
  unfold groups_of in Hdom. rewrite Hnil in Hdom. simpl in Hdom.
  assert (markers_of s' (editor_id ed) = ∅) as Hempty.
  { apply dom_empty_inv_L. rewrite Hdom. set_solver. }
  exists s'. rewrite (new_events_app _ _ _ Htr). split_and!; [done| |done| | |].
  - by rewrite Herr, lookup_delete_eq.
  - intros key marker Hm. rewrite !elem_of_app. right. right. by eapply Hdes.
  - unfold marker_creations. rewrite !filter_app.
    assert (filter (λ e, is_marker_creation e = true) (config_events ed) = [])
      as -> by (unfold config_events; by destruct (truthy_string (uri ed))).
    simpl. apply no_marker_creations. intros m Hin.
    apply Hsto in Hin. by rewrite Hempty, lookup_empty in Hin.
  - rewrite Hbar. unfold summary_of. rewrite Ha', Herr, lookup_delete_eq.
    destruct (statusBar s); [|done]. simpl. by rewrite app_nil_r.
Qed.
End LintResults.

Section LintTwice.
Context {Config : Type}.
Variable emptyConfig : Config.
Variable loadConfig : string → Exn + Config.
Variable jshint jsxhint : string → Config → Exn + list (option Diagnostic).

(** X15: after a pass that found diagnostics, a present status bar holds
    its other elements followed by one summary, and the summary is that
    of the leftmost diagnostic of the cursor's line or, when that line
    has none, of the leftmost diagnostic of the lowest line. *)
Theorem lint_shows_summary (s : State) (ed : Editor) (cfg : Config)
    (raw : list (option Diagnostic)) (bar : list Element) :
  activeEditor s = Some ed →
  supported ed →
  resolve_config emptyConfig loadConfig ed = inr cfg →
  selected_linter jshint jsxhint s (text ed) cfg = inr raw →
  compact raw ≠ [] →
  statusBar s = Some bar →
  ∃ s' d, lint emptyConfig loadConfig jshint jsxhint s = Ok () s' ∧
    statusBar s' = Some (without_summary bar ++ [summary_element d]) ∧
    shown_in_summary raw (cursor_row ed) d.
Proof.
  intros Ha Hsup Hcfg Hraw Hne Hb.
  destruct (lint_pass_state emptyConfig loadConfig jshint jsxhint s ed cfg raw)
    as (s' & Hrun & Ha' & _ & Herr & Hbar & _); [done..|].
  rewrite decide_False in Herr by done.
  rewrite Hb in Hbar. simpl in Hbar.
  assert (∀ d l rest,
    array_get (aggregate (compact raw)) l = Some (d :: rest) →
    Some d ∈ raw ∧ line d = l ∧
    ∀ d', Some d' ∈ raw → line d' = line d → character d ≤ character d')
    as Hhead.
  { intros d l rest Hg.
    destruct (aggregate_group_head _ _ _ _ Hg) as (Hd & Hl & Hmin).
    split_and!; [by apply elem_of_compact_Some|done|].
    intros d' Hd' Hl'. apply Hmin; [by apply elem_of_compact_Some|congruence]. }
  unfold summary_of in Hbar. rewrite Ha', Herr, lookup_insert_eq in Hbar.
  pose proof (aggregate_get (compact raw) (cursor_row ed + 1)) as Hcur.
  destruct (array_get (aggregate (compact raw)) (cursor_row ed + 1))
    as [[|d rest]|] eqn:Hg.
  - by destruct Hcur as (_ & ? & _).
  - exists s', d. split_and!; [done..|].
    destruct (Hhead d _ rest Hg) as (Hd & Hl & Hmin).
    split_and!; [done..|by left].
  - pose proof (aggregate_well_formed (compact raw) Hne) as [Hcne Hall].
    destruct (first (compact (aggregate (compact raw)))) as [g|] eqn:Hf.
    2: { by destruct (compact (aggregate (compact raw))). }
    destruct (first_compact_inv _ _ Hf) as (l & Hl & Hleast).
    destruct g as [|d rest].
    { pose proof (aggregate_get (compact raw) l) as H. rewrite Hl in H.
      by destruct H as (_ & ? & _). }
    exists s', d. split_and!; [done..|].
    destruct (Hhead d l rest Hl) as (Hd & Hline & Hmin).
    split_and!; [done..|]. right. split.
    + intros d' Hd' Hl'.
      assert (d' ∈ group_of_line (compact raw) (cursor_row ed + 1)) as Hin.
      { apply list_elem_of_filter. split; [done|].
        by apply elem_of_compact_Some. }
      rewrite Hcur in Hin. by apply elem_of_nil in Hin.
    + intros d' Hd'. rewrite Hline.
      destruct (decide (l ≤ line d')) as [|Hlt]; [done|]. exfalso.
      pose proof (aggregate_get (compact raw) (line d')) as H.
      rewrite (Hleast (line d')) in H by lia.
      assert (d' ∈ group_of_line (compact raw) (line d')) as Hin.
      { apply list_elem_of_filter. split; [done|].
        by apply elem_of_compact_Some. }
      rewrite H in Hin. by apply elem_of_nil in Hin.
Qed.

(** X16: a second pass over the same engine result ends with the error
    state, the marked rows and the status bar of the first; only the
    marker handles are exchanged. *)
Theorem lint_twice_same_state (s : State) (ed : Editor) (cfg : Config)
    (raw : list (option Diagnostic)) :
  activeEditor s = Some ed →
  supported ed →
  resolve_config emptyConfig loadConfig ed = inr cfg →
  selected_linter jshint jsxhint s (text ed) cfg = inr raw →
  ∃ s1 s2,
    lint emptyConfig loadConfig jshint jsxhint s = Ok () s1 ∧
    lint emptyConfig loadConfig jshint jsxhint s1 = Ok () s2 ∧
    errorsByEditorId s2 = errorsByEditorId s1 ∧
    dom (markers_of s2 (editor_id ed)) = dom (markers_of s1 (editor_id ed)) ∧
    statusBar s2 = statusBar s1.
Proof.
  intros Ha Hsup Hcfg Hraw.
  destruct (lint_pass_state emptyConfig loadConfig jshint jsxhint s ed cfg raw)
    as (s1 & Hrun1 & Ha1 & Hset1 & Herr1 & Hbar1 & Hdom1); [done..|].
  assert (selected_linter jshint jsxhint s1 (text ed) cfg = inr raw) as Hraw1.
  { unfold selected_linter, jsx_enabled in *. by rewrite Hset1. }
  destruct (lint_pass_state emptyConfig loadConfig jshint jsxhint s1 ed cfg raw)
    as (s2 & Hrun2 & Ha2 & Hset2 & Herr2 & Hbar2 & Hdom2); [done..|].
  assert (errorsByEditorId s2 = errorsByEditorId s1) as Herr.
  { rewrite Herr2, Herr1. case_decide.
    - by rewrite delete_delete_eq.
    - by rewrite insert_insert_eq. }
  exists s1, s2. split_and!; [done..| |].
  - by rewrite Hdom2, Hdom1.
  - rewrite Hbar2, Hbar1.
    rewrite (summary_of_ext s1 s2) by congruence.
    destruct (statusBar s) as [bar|]; [|done]. simpl. f_equal.
    destruct (summary_of_cases s1) as [->|[d ->]].
    + by rewrite !app_nil_r, without_summary_idemp.
    + by rewrite without_summary_app, without_summary_idemp.
Qed.
End LintTwice.

(** ** Live markers through a pass *)

Section Live.
Variable ed : Editor.

Lemma destroyMarkerAtRow_live s row s' :
  activeEditor s = Some ed →
  destroyMarkerAtRow row s = Ok () s' →
  ∀ x, x ∈ liveMarkers s' ↔
       x ∈ liveMarkers s ∧
       ∀ m, markers_of s (editor_id ed) !! to_property_key row = Some m →
            marker_id m ≠ x.
Proof.
  intros Ha. unfold destroyMarkerAtRow, destroy, markers_of. run.
  rewrite Ha. simpl.
  destruct (markersByEditorId s !! editor_id ed) as [ms|]; simpl.
  - destruct (ms !! to_property_key row) as [marker|]; intros [= <-] x; simpl.
    + rewrite elem_of_difference, elem_of_singleton. naive_solver.
    + naive_solver.
  - intros [= <-] x. rewrite lookup_empty. naive_solver.
Qed.

Lemma clear_loop_live rows ks s s' :
  activeEditor s = Some ed →
  each (RowStr <$> ks) (λ row,
    if contains (RowNum <$> rows) row then mret ()
    else destroyMarkerAtRow row) s = Ok () s' →
  ∀ x, x ∈ liveMarkers s' ↔
       x ∈ liveMarkers s ∧
       ∀ k m, k ∈ ks → markers_of s (editor_id ed) !! k = Some m →
              marker_id m ≠ x.
Proof.
  revert s. induction ks as [|k ks IH]; intros s Ha; simpl.
  { intros [= <-] x. split; [|naive_solver].
    intros Hx. split; [done|]. by intros k m ?%elem_of_nil. }
  rewrite contains_numbers_string.
  destruct (destroyMarkerAtRow_active ed s (RowStr k) Ha)
    as (s1 & Hrun & Hui & _ & Hm & _).
  rewrite (bind_Ok _ _ _ _ _ Hrun). intros Hloop x.
  rewrite (IH s1 (eq_trans (ui_editor _ _ Hui) Ha) Hloop x).
  rewrite (destroyMarkerAtRow_live s (RowStr k) s1 Ha Hrun x). simpl.
  rewrite Hm. split.
  - intros [[Hx Hk] Hks]. split; [done|].
    intros k' m [->|Hin]%elem_of_cons Hlook; [by apply Hk|].
    destruct (decide (k' = k)) as [->|Hne]; [by apply Hk|].
    apply (Hks k' m Hin). by rewrite lookup_delete_ne.
  - intros [Hx Hall]. split_and!; [done| |].
    + intros m Hlook. apply (Hall k m); [left|done].
    + intros k' m Hin [Hne Hlook]%lookup_delete_Some.
      apply (Hall k' m); [by right|done].
Qed.

Lemma clearOldMarkers_live errors s s' :
  activeEditor s = Some ed →
  Forall (λ g, g ≠ []) errors →
  clearOldMarkers errors s = Ok () s' →
  ∀ x, x ∈ liveMarkers s' ↔ x ∈ liveMarkers s ∧ ¬ held s (editor_id ed) x.
Proof.
  intros Ha Hne. unfold clearOldMarkers.
  rewrite (bind_Ok _ _ _ _ _ (map_each_rows errors s Hne)).
  rewrite (bind_Ok _ _ _ _ _ (getMarkersForEditor_active ed s Ha)).
  unfold keys. intros Hloop x.
  rewrite (clear_loop_live (rows_of errors) _ s s' Ha Hloop x).
  unfold held. split.
  - intros [Hx Hall]. split; [done|]. intros (key & marker & Hlook & Hid).
    apply (Hall key marker); [|done..].
    apply list_elem_of_fmap. exists (key, marker). split; [done|].
    by apply elem_of_map_to_list.
  - intros [Hx Hno]. split; [done|]. intros k m _ Hlook Hid.
    apply Hno. eauto.
Qed.

Lemma display_loop_live errors s s' :
  activeEditor s = Some ed →
  Forall (λ g, g ≠ []) errors →
  each errors displayError s = Ok () s' →
  (∀ x, held s (editor_id ed) x → x ∈ liveMarkers s) →
  ∀ x, x ∈ liveMarkers s' ↔ x ∈ liveMarkers s ∨ held s' (editor_id ed) x.
Proof.
  intros Ha Hne. revert s Ha.
  induction Hne as [|g errors Hg Hne IH]; intros s Ha; simpl.
  { intros [= <-] Hheld x. naive_solver. }
  destruct g as [|d rest]; [done|].
  destruct (displayError_active ed s (d :: rest) _ Ha eq_refl)
    as (s1 & Hrun & Hui & _ & _ & _ & Hsame & _).
  rewrite (bind_Ok _ _ _ _ _ Hrun). intros Hloop Hheld x.
  pose proof (eq_trans (ui_editor _ _ Hui) Ha) as Ha1.
  destruct (display_loop ed errors s1 Ha1 Hne)
    as (s2 & Hrun2 & _ & _ & _ & _ & Hsub & _).
  assert (s2 = s') as -> by congruence.
  set (row := (if decide (line d = 0) then 1 else line d) - 1) in *.
  destruct (markers_of s (editor_id ed) !! show row) as [m|] eqn:Hlook.
  - assert (s1 = s) as -> by (apply Hsame; eauto).
    by apply IH.
  - destruct (displayError_unmarked ed s (d :: rest) row Ha eq_refl Hlook)
      as (s1' & Hrun' & _ & Hm & Hlive & _).
    assert (s1' = s1) as -> by congruence.
    assert (∀ y, held s1 (editor_id ed) y → y ∈ liveMarkers s1) as Hheld1.
    { intros y (key & marker & Hk & Hid). rewrite Hlive. rewrite Hm in Hk.
      apply lookup_insert_Some in Hk as [[_ <-]|[_ Hk]]; simpl in *.
      - set_solver.
      - apply elem_of_union. right. apply Hheld. by exists key, marker. }
    rewrite (IH s1 Ha1 Hloop Hheld1 x), Hlive.
    rewrite elem_of_union, elem_of_singleton. split; [|naive_solver].
    intros [[->|Hx]|Hx]; [|by left|by right].
    right. exists (show row), {| marker_id := nextMarkerId s; marker_row := row |}.
    split; [|done]. eapply lookup_weaken; [|exact Hsub].
    rewrite Hm. apply lookup_insert_eq.
Qed.

Lemma displayErrors_live errors s s' :
  activeEditor s = Some ed →
  Forall (λ g, g ≠ []) errors →
  displayErrors errors s = Ok () s' →
  ∀ x, x ∈ liveMarkers s' ↔
       (x ∈ liveMarkers s ∧ ¬ held s (editor_id ed) x) ∨
       held s' (editor_id ed) x.
Proof.
  intros Ha Hne. unfold displayErrors.
  destruct (clearOldMarkers_active ed errors s Ha Hne)
    as (s1 & Hrun1 & Hui1 & _ & Hm1 & _).
  rewrite (bind_Ok _ _ _ _ _ Hrun1).
  pose proof (eq_trans (ui_editor _ _ Hui1) Ha) as Ha1.
  destruct (updateStatusbar s1) as [[] s2|e s2] eqn:Hrun2.
  2: { by rewrite (bind_Throw _ _ _ _ _ Hrun2). }
  rewrite (bind_Ok _ _ _ _ _ Hrun2).
  pose proof (updateStatusbar_state s1) as Hs2. rewrite Hrun2 in Hs2.
  simpl in Hs2. intros Hloop x.
  assert (markers_of s2 (editor_id ed) = ∅) as Hempty.
  { rewrite Hs2. exact Hm1. }
  assert (activeEditor s2 = Some ed) as Ha2 by (by rewrite Hs2).
  rewrite (display_loop_live errors s2 s' Ha2 Hne Hloop).
  - assert (liveMarkers s2 = liveMarkers s1) as -> by (by rewrite Hs2).
    by rewrite (clearOldMarkers_live errors s s1 Ha Hne Hrun1 x).
  - intros y (key & marker & Hk & _). by rewrite Hempty, lookup_empty in Hk.
Qed.
End Live.

Section LintLive.
Context {Config : Type}.
Variable emptyConfig : Config.
Variable loadConfig : string → Exn + Config.
Variable jshint jsxhint : string → Config → Exn + list (option Diagnostic).

(** X17: a pass keeps the host's live markers in step with the store:
    a marker is live afterwards exactly when it was live before and not
    held for the editor, or is held for the editor now.  So a pass
    destroys no marker of another editor and leaves none of its own
    behind. *)
Theorem lint_accounts_for_live_markers (s : State) (ed : Editor)
    (cfg : Config) (raw : list (option Diagnostic)) :
  activeEditor s = Some ed →
  supported ed →
  resolve_config emptyConfig loadConfig ed = inr cfg →
  selected_linter jshint jsxhint s (text ed) cfg = inr raw →
  ∃ s', lint emptyConfig loadConfig jshint jsxhint s = Ok () s' ∧
    ∀ x, x ∈ liveMarkers s' ↔
         (x ∈ liveMarkers s ∧ ¬ held s (editor_id ed) x) ∨
         held s' (editor_id ed) x.
Proof.
  intros Ha Hsup Hcfg Hraw.
  destruct (lint_pass emptyConfig loadConfig jshint jsxhint s ed cfg raw)
    as (s' & evs & Hrun & _); [done..|].
  exists s'. split; [done|].
  rewrite (lint_prefix emptyConfig loadConfig jshint jsxhint s ed) in Hrun
    by done.
  rewrite Hcfg, Hraw in Hrun.
  erewrite bind_Ok in Hrun; [|by unfold removeErrorsForEditorId; run].
  destruct (decide (0 < length (compact raw))) as [Hlen|Hlen].
  - erewrite bind_Ok in Hrun; [|by run].
    exact (displayErrors_live ed _ _ _
             (Ha : activeEditor (with_errors _ (with_errors _ (after_engine ed s))) = _)
             (groups_of_nonempty raw) Hrun).
  - erewrite bind_Ok in Hrun; [|by run].
    exact (displayErrors_live ed [] _ _
             (Ha : activeEditor (with_errors _ (after_engine ed s)) = _)
             (Forall_nil_2 _) Hrun).
Qed.
End LintLive.

(** ** The order of the host calls of a pass *)

Section Order.
Variable ed : Editor.

Lemma display_loop_no_destruction errors s s' :
  activeEditor s = Some ed →
  Forall (λ g, g ≠ []) errors →
  each errors displayError s = Ok () s' →
  ∃ evs, trace s' = trace s ++ evs ∧ marker_destructions evs = [].
Proof.
  intros Ha Hne. revert s Ha.
  induction Hne as [|g errors Hg Hne IH]; intros s Ha; simpl.
  { intros [= <-]. exists []. by rewrite app_nil_r. }
  destruct g as [|d rest]; [done|].
  destruct (displayError_active ed s (d :: rest) _ Ha eq_refl)
    as (s1 & Hrun & Hui & _ & _ & _ & Hsame & _).
  rewrite (bind_Ok _ _ _ _ _ Hrun). intros Hloop.
  pose proof (eq_trans (ui_editor _ _ Hui) Ha) as Ha1.
  destruct (IH s1 Ha1 Hloop) as (evs & Htr & Hno).
  set (row := (if decide (line d = 0) then 1 else line d) - 1) in *.
  destruct (markers_of s (editor_id ed) !! show row) as [m|] eqn:Hlook.
  - assert (s1 = s) as -> by (apply Hsame; eauto). by exists evs.
  - destruct (displayError_unmarked ed s (d :: rest) row Ha eq_refl Hlook)
      as (s1' & Hrun' & Hev & _).
    assert (s1' = s1) as -> by congruence.
    exists (new_events s s1 ++ evs). split.
    + by rewrite Htr, (ui_step_events _ _ Hui), <- app_assoc.
    + unfold marker_destructions in *. by rewrite filter_app, Hno, Hev.
Qed.

Lemma displayErrors_order errors s s' :
  activeEditor s = Some ed →
  Forall (λ g, g ≠ []) errors →
  displayErrors errors s = Ok () s' →
  ∃ before after, trace s' = trace s ++ before ++ after ∧
    marker_creations before = [] ∧ marker_destructions after = [].
Proof.
  intros Ha Hne. unfold displayErrors.
  destruct (clearOldMarkers_active ed errors s Ha Hne)
    as (s1 & Hrun1 & Hui1 & _ & _ & _ & Hnew1).
  rewrite (bind_Ok _ _ _ _ _ Hrun1).
  destruct (updateStatusbar s1) as [[] s2|e s2] eqn:Hrun2.
  2: { by rewrite (bind_Throw _ _ _ _ _ Hrun2). }
  rewrite (bind_Ok _ _ _ _ _ Hrun2).
  pose proof (updateStatusbar_state s1) as Hs2. rewrite Hrun2 in Hs2.
  simpl in Hs2. intros Hloop.
  assert (activeEditor s2 = Some ed) as Ha2.
  { rewrite Hs2. simpl. by rewrite (ui_editor _ _ Hui1). }
  destruct (display_loop_no_destruction errors s2 s' Ha2 Hne Hloop)
    as (evs & Htr & Hno).
  exists (new_events s s1), evs. split_and!; [|done..].
  rewrite Htr, Hs2. simpl. by rewrite (ui_step_events _ _ Hui1), <- app_assoc.
Qed.
End Order.

Section LintOrder.
Context {Config : Type}.
Variable emptyConfig : Config.
Variable loadConfig : string → Exn + Config.
Variable jshint jsxhint : string → Config → Exn + list (option Diagnostic).

(** X18: the host calls of a pass fall in two parts: no marker is
    created in the first and none is destroyed in the second.  So every
    old marker is gone before the first new one is made. *)
Theorem lint_destroys_before_it_creates (s : State) (ed : Editor)
    (cfg : Config) (raw : list (option Diagnostic)) :
  activeEditor s = Some ed →
  supported ed →
  resolve_config emptyConfig loadConfig ed = inr cfg →
  selected_linter jshint jsxhint s (text ed) cfg = inr raw →
  ∃ s' before after,
    lint emptyConfig loadConfig jshint jsxhint s = Ok () s' ∧
    new_events s s' = before ++ after ∧
    marker_creations before = [] ∧
    marker_destructions after = [].
Proof.
  intros Ha Hsup Hcfg Hraw.
  destruct (lint_pass emptyConfig loadConfig jshint jsxhint s ed cfg raw)
    as (s' & evs0 & Hrun & _); [done..|].
  pose proof Hrun as Hrun0.
  rewrite (lint_prefix emptyConfig loadConfig jshint jsxhint s ed) in Hrun
    by done.
  rewrite Hcfg, Hraw in Hrun.
  erewrite bind_Ok in Hrun; [|by unfold removeErrorsForEditorId; run].
  assert (∃ before after,
    trace s' = trace (after_engine ed s) ++ before ++ after ∧
    marker_creations before = [] ∧ marker_destructions after = [])
    as (before & after & Htr & Hb & Hafter).
  { destruct (decide (0 < length (compact raw))) as [Hlen|Hlen].
    - erewrite bind_Ok in Hrun; [|by run].
      exact (displayErrors_order ed _ _ _
               (Ha : activeEditor
                       (with_errors _ (with_errors _ (after_engine ed s))) = _)
               (groups_of_nonempty raw) Hrun).
    - erewrite bind_Ok in Hrun; [|by run].
      exact (displayErrors_order ed [] _ _
               (Ha : activeEditor (with_errors _ (after_engine ed s)) = _)
               (Forall_nil_2 _) Hrun). }
  exists s', (config_events ed ++ [RunEngine (selected_engine s) (text ed)]
              ++ before), after.
  split_and!; [done| | |done].
  - apply new_events_app. rewrite Htr. simpl. by rewrite <- !app_assoc.
  - unfold marker_creations in *. rewrite !filter_app, Hb.
    unfold config_events. by destruct (truthy_string (uri ed)).
Qed.
End LintOrder.


(** ** The further properties at concrete inputs *)

Lemma aggregate_keeps_report_order_witness :
  filter (λ d, character d = 4)
    [unused_variable; missing_semicolon; unexpected_token]
  = filter (λ d, character d = 4)
      (filter (λ d, line d = 3)
         [missing_semicolon; unexpected_token; unused_variable]).
Proof.
  apply (aggregate_keeps_report_order
           [missing_semicolon; unexpected_token; unused_variable] 3 4).
  reflexivity.
Defined.

Lemma saveMarker_then_getMarkerAtRow_witness :
  ∃ s', saveMarker {| marker_id := 0; marker_row := 2 |} (RowNum 2)
          (fresh_state (Some editor1)) = Ok () s' ∧
    store_step (fresh_state (Some editor1)) s' ∧
    liveMarkers s' = liveMarkers (fresh_state (Some editor1)) ∧
    trace s' = trace (fresh_state (Some editor1)) ∧
    ∀ row', names_row row' →
      getMarkerAtRow row' s' =
      Ok (if decide (to_property_key row' = to_property_key (RowNum 2))
          then Some {| marker_id := 0; marker_row := 2 |}
          else markers_of (fresh_state (Some editor1)) (editor_id editor1)
                 !! to_property_key row') s'.
Proof.
  apply (saveMarker_then_getMarkerAtRow (fresh_state (Some editor1)) editor1
           {| marker_id := 0; marker_row := 2 |} (RowNum 2)).
  - reflexivity.
  - exists 2. reflexivity.
Defined.

Lemma destroyMarkerAtRow_unmarks_witness :
  ∃ s', destroyMarkerAtRow (RowStr "2") marked_state = Ok () s' ∧
    getMarkerAtRow (RowStr "2") s' = Ok None s' ∧
    (∀ row', names_row row' →
       to_property_key row' ≠ to_property_key (RowStr "2") →
       getMarkerAtRow row' s' =
       Ok (markers_of marked_state (editor_id editor1) !! to_property_key row') s') ∧
    (∀ marker,
       markers_of marked_state (editor_id editor1) !! to_property_key (RowStr "2")
       = Some marker →
       marker_destructions (new_events marked_state s') = [DestroyMarker marker] ∧
       marker_creations (new_events marked_state s') = [] ∧
       marker_id marker ∉ liveMarkers s') ∧
    (markers_of marked_state (editor_id editor1) !! to_property_key (RowStr "2")
     = None → s' = marked_state).
Proof.
  apply (destroyMarkerAtRow_unmarks marked_state editor1 (RowStr "2")).
  - reflexivity.
  - exists 2. reflexivity.
Defined.

Lemma displayError_marks_once_witness :
  ∃ s', displayError [missing_semicolon] (fresh_state (Some editor1)) = Ok () s' ∧
    ∀ error', getRowForError error' = Some 2 →
      displayError error' s' = Ok () s'.
Proof.
  apply (displayError_marks_once (fresh_state (Some editor1)) editor1
           [missing_semicolon] 2).
  - reflexivity.
  - reflexivity.
Defined.

Lemma displayError_on_unmarked_row_witness :
  ∃ s', displayError [unused_variable; missing_semicolon]
          (fresh_state (Some editor1)) = Ok () s' ∧
    new_events (fresh_state (Some editor1)) s' =
      [MarkBufferRange {| marker_id := 0; marker_row := 2 |};
       DecorateMarker {| marker_id := 0; marker_row := 2 |} "line" "jshint-line";
       DecorateMarker {| marker_id := 0; marker_row := 2 |}
         "gutter" "jshint-line-number";
       DestroyTooltip 2;
       SetTooltip 2
         {| el_tag := "div"; el_id := ""; el_class := "jshint-errors";
            el_inner := "1: Unused variable<br />4: Missing semicolon" |};
       OnChangedDestroyed {| marker_id := 0; marker_row := 2 |}] ∧
    markers_of s' (editor_id editor1) =
      <[show 2 := {| marker_id := 0; marker_row := 2 |}]>
        (markers_of (fresh_state (Some editor1)) (editor_id editor1)) ∧
    liveMarkers s' = {[0]} ∪ liveMarkers (fresh_state (Some editor1)).
Proof.
  apply (displayError_on_unmarked_row (fresh_state (Some editor1)) editor1
           [unused_variable; missing_semicolon] 2).
  - reflexivity.
  - reflexivity.
  - reflexivity.
Defined.

Lemma displayErrors_empty_group_faults_witness :
  displayErrors [[missing_semicolon]; []] marked_state
  = Throw (TypeError "Cannot read property 'line' of undefined") marked_state.
Proof.
  apply (displayErrors_empty_group_faults marked_state [[missing_semicolon]; []]).
  apply list_elem_of_In. simpl. right. left. reflexivity.
Defined.

Lemma lint_ignores_null_entries_witness :
  lint () load_ok (engine_reports [Some missing_semicolon]) engine_fails
    (fresh_state (Some editor1))
  = lint () load_ok (engine_reports [None; Some missing_semicolon; None])
      engine_fails (fresh_state (Some editor1)).
Proof.
  apply (lint_ignores_null_entries () load_ok
           (engine_reports [Some missing_semicolon]) engine_fails
           (engine_reports [None; Some missing_semicolon; None]) engine_fails
           (fresh_state (Some editor1)) editor1 ()
           [Some missing_semicolon] [None; Some missing_semicolon; None]).
  - reflexivity.
  - left. reflexivity.
  - reflexivity.
  - reflexivity.
  - reflexivity.
  - reflexivity.
Defined.

Lemma lint_untitled_editor_witness :
  (∀ loadConfig',
     lint () loadConfig' (engine_reports [Some missing_semicolon]) engine_fails
       (fresh_state (Some untitled_editor))
     = lint () load_ok (engine_reports [Some missing_semicolon]) engine_fails
         (fresh_state (Some untitled_editor))) ∧
  lint () load_ok
    (λ source _, engine_reports [Some missing_semicolon] source ())
    (λ source _, engine_fails source ()) (fresh_state (Some untitled_editor))
  = lint () load_ok (engine_reports [Some missing_semicolon]) engine_fails
      (fresh_state (Some untitled_editor)) ∧
  ∀ file, LoadConfig file ∉
    new_events (fresh_state (Some untitled_editor))
      (state_of (lint () load_ok (engine_reports [Some missing_semicolon])
                   engine_fails (fresh_state (Some untitled_editor)))).
Proof.
  apply (lint_untitled_editor () load_ok
           (engine_reports [Some missing_semicolon]) engine_fails
           (fresh_state (Some untitled_editor)) untitled_editor).
  - reflexivity.
  - left. reflexivity.
  - left. reflexivity.
Defined.

Lemma lint_without_diagnostics_clears_witness :
  ∃ s', lint () load_ok engine_fails (engine_reports [None]) marked_state
        = Ok () s' ∧
    errorsByEditorId s' !! editor_id editor1 = None ∧
    markers_of s' (editor_id editor1) = ∅ ∧
    (∀ key marker,
       markers_of marked_state (editor_id editor1) !! key = Some marker →
       DestroyMarker marker ∈ new_events marked_state s') ∧
    marker_creations (new_events marked_state s') = [] ∧
    statusBar s' = without_summary <$> statusBar marked_state.
Proof.
  apply (lint_without_diagnostics_clears () load_ok engine_fails
           (engine_reports [None]) marked_state editor1 () [None]).
  - reflexivity.
  - left. reflexivity.
  - reflexivity.
  - reflexivity.
  - reflexivity.
Defined.

Lemma lint_shows_summary_witness :
  ∃ s' d,
    lint () load_ok
      (engine_reports [Some undefined_name; Some missing_semicolon;
                       Some unused_variable])
      engine_fails (fresh_state (Some editor1)) = Ok () s' ∧
    statusBar s' = Some (without_summary [] ++ [summary_element d]) ∧
    shown_in_summary
      [Some undefined_name; Some missing_semicolon; Some unused_variable]
      (cursor_row editor1) d.
Proof.
  apply (lint_shows_summary () load_ok
           (engine_reports [Some undefined_name; Some missing_semicolon;
                            Some unused_variable])
           engine_fails (fresh_state (Some editor1)) editor1 ()
           [Some undefined_name; Some missing_semicolon; Some unused_variable]
           []).
  - reflexivity.
  - left. reflexivity.
  - reflexivity.
  - reflexivity.
  - discriminate.
  - reflexivity.
Defined.

Lemma lint_twice_same_state_witness :
  ∃ s1 s2,
    lint_missing_semicolon (fresh_state (Some editor1)) = Ok () s1 ∧
    lint_missing_semicolon s1 = Ok () s2 ∧
    errorsByEditorId s2 = errorsByEditorId s1 ∧
    dom (markers_of s2 (editor_id editor1))
    = dom (markers_of s1 (editor_id editor1)) ∧
    statusBar s2 = statusBar s1.
Proof.
  apply (lint_twice_same_state () load_ok
           (engine_reports [Some missing_semicolon]) engine_fails
           (fresh_state (Some editor1)) editor1 () [Some missing_semicolon]).
  - reflexivity.
  - left. reflexivity.
  - reflexivity.
  - reflexivity.
Defined.

Lemma lint_accounts_for_live_markers_witness :
  ∃ s', lint () load_ok engine_fails (engine_reports [Some undefined_name])
          marked_state = Ok () s' ∧
    ∀ x, x ∈ liveMarkers s' ↔
         (x ∈ liveMarkers marked_state ∧ ¬ held marked_state (editor_id editor1) x) ∨
         held s' (editor_id editor1) x.
Proof.
  apply (lint_accounts_for_live_markers () load_ok engine_fails
           (engine_reports [Some undefined_name]) marked_state editor1 ()
           [Some undefined_name]).
  - reflexivity.
  - left. reflexivity.
  - reflexivity.
  - reflexivity.
Defined.

Lemma lint_destroys_before_it_creates_witness :
  ∃ s' before after,
    lint () load_ok engine_fails (engine_reports [Some undefined_name])
      marked_state = Ok () s' ∧
    new_events marked_state s' = before ++ after ∧
    marker_creations before = [] ∧
    marker_destructions after = [].
Proof.
  apply (lint_destroys_before_it_creates () load_ok engine_fails
           (engine_reports [Some undefined_name]) marked_state editor1 ()
           [Some undefined_name]).
  - reflexivity.
  - left. reflexivity.
  - reflexivity.
  - reflexivity.
Defined.
